(** * bec_qthemes: hover gradient and material icons

    A shallow embedding of [bec_qthemes/_hover_gradient.py] and
    [bec_qthemes/_icon/material_icons.py], and the properties of the
    specification proved (or refuted) over it.

    Conventions.
    - Python [int] is [Z]; Python numbers that may be [float] (the opacity
      multiplier, gradient radii, alpha values) are exact rationals [Q]:
      rounding of binary64 products is not modelled.
    - Python [str] is [string]; every character is a code point below 256.
    - A Python exception is a value of [exn]; a call that may raise returns
      a [result].
    - A Python [dict] is a [gmap]. *)

From Stdlib Require Import ZArith QArith Lia Lqa Bool Ascii String List.
From stdpp Require Import base option list strings gmap.
From Equations Require Import Equations.

Import ListNotations.
Local Open Scope string_scope.
Local Open Scope Z_scope.

(** ** Python results *)

Inductive exn : Type :=
| AttributeError (attr : string)
| IndexError
| KeyError (key : string)
| TypeError (msg : string)
| ValueError (msg : string)
| RuntimeError (msg : string).

(** [KeyError] and [IndexError] are the two subclasses of [LookupError]. *)
Definition is_LookupError (e : exn) : bool :=
  match e with
  | KeyError _ | IndexError => true
  | _ => false
  end.

Definition is_TypeError (e : exn) : bool :=
  match e with
  | TypeError _ => true
  | _ => false
  end.

Inductive result (A : Type) : Type :=
| Ok (a : A)
| Raise (e : exn).
Arguments Ok {A} a.
Arguments Raise {A} e.

#[global] Instance result_ret : MRet result := fun _ a => Ok a.
#[global] Instance result_bind : MBind result := fun _ _ k m =>
  match m with
  | Ok a => k a
  | Raise e => Raise e
  end.

Definition raises {A} (m : result A) : Prop :=
  match m with
  | Ok _ => False
  | Raise _ => True
  end.

(** ** The pattern [border-radius\s*:\s*([0-9]+)] of [re.findall] *)

Module Re.

(** [\s] on a [str] pattern matches the characters for which
    [str.isspace] holds; below code point 256 these are 9-13, 28-32,
    133 and 160. *)
Definition is_space (c : ascii) : bool :=
  let n := N_of_ascii c in
  (((9 <=? n) && (n <=? 13)) || ((28 <=? n) && (n <=? 32))
   || (n =? 133) || (n =? 160))%N.

Definition is_digit (c : ascii) : bool :=
  let n := N_of_ascii c in ((48 <=? n) && (n <=? 57))%N.

Fixpoint strip_prefix (p s : string) : option string :=
  match p with
  | EmptyString => Some s
  | String a p' =>
      match s with
      | String b s' => if Ascii.eqb a b then strip_prefix p' s' else None
      | EmptyString => None
      end
  end.

(** [\s*], greedy. *)
Fixpoint skip_spaces (s : string) : string :=
  match s with
  | String c r => if is_space c then skip_spaces r else s
  | EmptyString => EmptyString
  end.

(** [[0-9]*], greedy: the digits taken and the rest. *)
Fixpoint take_digits (s : string) : string * string :=
  match s with
  | String c r =>
      if is_digit c
      then let '(ds, rest) := take_digits r in (String c ds, rest)
      else (EmptyString, s)
  | EmptyString => (EmptyString, EmptyString)
  end.

(** One attempt of the pattern at the start of [s]: the captured group
    and what follows the match. *)
Definition match_here (s : string) : option (string * string) :=
  match strip_prefix "border-radius" s with
  | None => None
  | Some r1 =>
      match skip_spaces r1 with
      | String ":" r2 =>
          match take_digits (skip_spaces r2) with
          | (EmptyString, _) => None
          | (ds, rest) => Some (ds, rest)
          end
      | _ => None
      end
  end.

Lemma strip_prefix_length p s r :
  strip_prefix p s = Some r ->
  String.length s = (String.length p + String.length r)%nat.
Proof.
  revert s; induction p as [|a p IH]; intros s H; simpl in *.
  - by inversion H.
  - destruct s as [|b s]; [done|].
    destruct (Ascii.eqb a b); [|done]. simpl. by rewrite (IH _ H).
Qed.

Lemma skip_spaces_length s :
  (String.length (skip_spaces s) <= String.length s)%nat.
Proof.
  induction s as [|c s IH]; simpl; [lia|].
  destruct (is_space c); simpl; lia.
Qed.

Lemma take_digits_length s ds rest :
  take_digits s = (ds, rest) ->
  String.length s = (String.length ds + String.length rest)%nat.
Proof.
  revert ds rest; induction s as [|c s IH]; intros ds rest H; simpl in *.
  - by inversion H.
  - destruct (is_digit c).
    + destruct (take_digits s) as [ds' rest'] eqn:E. inversion H; subst.
      simpl. by rewrite (IH _ _ eq_refl).
    + by inversion H.
Qed.

Lemma match_here_shorter s ds rest :
  match_here s = Some (ds, rest) ->
  (String.length rest < String.length s)%nat.
Proof.
  unfold match_here. intros H.
  destruct (strip_prefix _ s) as [r1|] eqn:E1; [|done].
  apply strip_prefix_length in E1.
  pose proof (skip_spaces_length r1) as L1.
  destruct (skip_spaces r1) as [|c r2]; [done|].
  pose proof (skip_spaces_length r2) as L2.
  destruct (take_digits (skip_spaces r2)) as [d r] eqn:E2.
  apply take_digits_length in E2.
  assert (rest = r) as -> by (destruct d; destruct c as [[] [] [] [] [] [] [] []]; congruence).
  simpl in *. lia.
Qed.

Definition inspect {A} (a : A) : {b | a = b} := exist _ a eq_refl.

(** [re.findall]: scan from the left; after a match continue behind it,
    otherwise move one character on.  A match is never empty. *)
Equations? findall (s : string) : list string by wf (String.length s) lt :=
  findall s with inspect (match_here s) := {
    | exist _ (Some m) E => m.1 :: findall m.2
    | exist _ None E with s := {
        | EmptyString => []
        | String _ r => findall r } }.
Proof.
  eapply match_here_shorter; eassumption.
Qed.

End Re.

(** ** Qt values *)

Record QPoint : Type := mkQPoint { px : Z; py : Z }.

#[global] Instance QPoint_eq_dec : EqDecision QPoint.
Proof. solve_decision. Defined.

(** [QRect(left, top, width, height)]. *)
Record QRect : Type := mkQRect { r_left : Z; r_top : Z; r_width : Z; r_height : Z }.

(** [QRect.contains(p)] for a rectangle of non-negative width and height:
    the right and bottom edges are [left + width - 1], [top + height - 1]. *)
Definition contains (r : QRect) (p : QPoint) : bool :=
  (r_left r <=? px p) && (px p <=? r_left r + r_width r - 1)
  && (r_top r <=? py p) && (py p <=? r_top r + r_height r - 1).

(** [QRect.adjusted(dx1, dy1, dx2, dy2)]. *)
Definition adjusted (r : QRect) (dx1 dy1 dx2 dy2 : Z) : QRect :=
  mkQRect (r_left r + dx1) (r_top r + dy1)
          (r_width r + dx2 - dx1) (r_height r + dy2 - dy1).

(** [QColor(name)], and the alpha channel when [setAlpha] has replaced the
    one the name gives. *)
Record QColor : Type := mkQColor { c_name : string; c_alpha : option Q }.

Definition QColor_of (name : string) : QColor := mkQColor name None.
Definition setAlpha (c : QColor) (a : Q) : QColor := mkQColor (c_name c) (Some a).

(** What [QGradient.setColorAt] receives: a colour or [Qt.transparent]. *)
Inductive GradientColor : Type :=
| OfColor (c : QColor)
| Qt_transparent.

(** [QRadialGradient(centre, radius)] with its colour stops, in the order
    [setColorAt] was called. *)
Record QRadialGradient : Type := mkGradient {
  g_centre : QPoint;
  g_radius : Q;
  g_stops : list (Q * GradientColor)
}.

Inductive QPainterPath : Type :=
| RoundedRectPath (r : QRect) (xRadius yRadius : Z)
| RectPath (r : QRect).

(** What a paint routine puts on the widget's surface. *)
Inductive DrawOp : Type :=
| OwnDrawing
| FillPath (path : QPainterPath) (gradient : QRadialGradient).

Inductive QEvent : Type :=
| MouseMove (globalPos : QPoint)
| Enter (pos : QPoint)
| Leave
| MouseButtonPress
| MouseButtonRelease
| OtherEvent (type : Z).

(** ** Widgets, filters and the object store *)

(** The value of a widget's [paintEvent] attribute: the method of its
    class, or the closure [patched_paint] of [enable_hover_gradient] with
    the two variables it captures. *)
Inductive PaintRoutine : Type :=
| ClassPaint
| PatchedPaint (original_paint : PaintRoutine) (opacity : Q).

(** A descendant widget, as far as [_propagate_mouse_tracking] touches it. *)
#[warnings="-register-all"]
Inductive Child : Type :=
| mkChild (c_mouseTracking : bool) (c_eventFilters : list nat) (c_children : list Child).

(** A widget: the Qt properties the module reads or writes, and the
    attributes [_hg_*] it attaches ([None]: the attribute is not set). *)
Record Widget : Type := mkWidget {
  w_width : Z;
  w_height : Z;
  w_origin : QPoint;
  w_styleSheet : string;
  w_mouseTracking : bool;
  w_styledBackground : bool;
  w_eventFilters : list nat;
  w_destroyed_slots : list nat;
  w_children : list Child;
  w_updates : nat;
  paintEvent : PaintRoutine;
  _hg_enabled : option bool;
  _hg_cols : option (list QColor);
  _hg_hover : option bool;
  _hg_pressed : option bool;
  _hg_pos : option QPoint;
  _hg_radius : option Z;
  _hg_orig_paint : option PaintRoutine;
  _hg_filter : option nat
}.

(** An instance of [_HoverGradientFilter]. *)
Record Filter : Type := mkFilter {
  _target : option nat;
  f_deleteLater : bool
}.

(** The live objects: widgets and filters by identity, and the style sheet
    of [QApplication.instance()] ([None]: there is no application). *)
Record World : Type := mkWorld {
  widgets : gmap nat Widget;
  filters : gmap nat Filter;
  next_filter : nat;
  app_styleSheet : option string
}.

Definition dead_object : exn :=
  RuntimeError "Internal C++ object already deleted.".

Definition get_widget (wid : nat) (world : World) : result Widget :=
  match widgets world !! wid with
  | Some w => Ok w
  | None => Raise dead_object
  end.

Definition set_widget (wid : nat) (w : Widget) (world : World) : World :=
  mkWorld (<[wid := w]> (widgets world)) (filters world)
          (next_filter world) (app_styleSheet world).

Definition get_filter (fid : nat) (world : World) : result Filter :=
  match filters world !! fid with
  | Some f => Ok f
  | None => Raise dead_object
  end.

Definition set_filter (fid : nat) (f : Filter) (world : World) : World :=
  mkWorld (widgets world) (<[fid := f]> (filters world))
          (next_filter world) (app_styleSheet world).

(** [getattr(obj, name, default)]. *)
Definition getattr {A} (attr : option A) (default : A) : A :=
  match attr with
  | Some a => a
  | None => default
  end.

(** [obj.name]. *)
Definition attr {A} (name : string) (a : option A) : result A :=
  match a with
  | Some v => Ok v
  | None => Raise (AttributeError name)
  end.

(** [widget.update()]: one more repaint request. *)
Definition update (w : Widget) : Widget :=
  mkWidget (w_width w) (w_height w) (w_origin w) (w_styleSheet w)
    (w_mouseTracking w) (w_styledBackground w) (w_eventFilters w)
    (w_destroyed_slots w) (w_children w) (S (w_updates w)) (paintEvent w)
    (_hg_enabled w) (_hg_cols w) (_hg_hover w) (_hg_pressed w) (_hg_pos w)
    (_hg_radius w) (_hg_orig_paint w) (_hg_filter w).

Definition set_hg_hover (b : bool) (w : Widget) : Widget :=
  mkWidget (w_width w) (w_height w) (w_origin w) (w_styleSheet w)
    (w_mouseTracking w) (w_styledBackground w) (w_eventFilters w)
    (w_destroyed_slots w) (w_children w) (w_updates w) (paintEvent w)
    (_hg_enabled w) (_hg_cols w) (Some b) (_hg_pressed w) (_hg_pos w)
    (_hg_radius w) (_hg_orig_paint w) (_hg_filter w).

Definition set_hg_pressed (b : bool) (w : Widget) : Widget :=
  mkWidget (w_width w) (w_height w) (w_origin w) (w_styleSheet w)
    (w_mouseTracking w) (w_styledBackground w) (w_eventFilters w)
    (w_destroyed_slots w) (w_children w) (w_updates w) (paintEvent w)
    (_hg_enabled w) (_hg_cols w) (_hg_hover w) (Some b) (_hg_pos w)
    (_hg_radius w) (_hg_orig_paint w) (_hg_filter w).

Definition set_hg_pos (p : QPoint) (w : Widget) : Widget :=
  mkWidget (w_width w) (w_height w) (w_origin w) (w_styleSheet w)
    (w_mouseTracking w) (w_styledBackground w) (w_eventFilters w)
    (w_destroyed_slots w) (w_children w) (w_updates w) (paintEvent w)
    (_hg_enabled w) (_hg_cols w) (_hg_hover w) (_hg_pressed w) (Some p)
    (_hg_radius w) (_hg_orig_paint w) (_hg_filter w).

Definition set_hg_radius (r : Z) (w : Widget) : Widget :=
  mkWidget (w_width w) (w_height w) (w_origin w) (w_styleSheet w)
    (w_mouseTracking w) (w_styledBackground w) (w_eventFilters w)
    (w_destroyed_slots w) (w_children w) (w_updates w) (paintEvent w)
    (_hg_enabled w) (_hg_cols w) (_hg_hover w) (_hg_pressed w) (_hg_pos w)
    (Some r) (_hg_orig_paint w) (_hg_filter w).

(** [widget.setStyleSheet(text)], done by the host, never by this module. *)
Definition setStyleSheet (text : string) (w : Widget) : Widget :=
  mkWidget (w_width w) (w_height w) (w_origin w) text
    (w_mouseTracking w) (w_styledBackground w) (w_eventFilters w)
    (w_destroyed_slots w) (w_children w) (w_updates w) (paintEvent w)
    (_hg_enabled w) (_hg_cols w) (_hg_hover w) (_hg_pressed w) (_hg_pos w)
    (_hg_radius w) (_hg_orig_paint w) (_hg_filter w).

(** [widget.rect()] and [widget.mapFromGlobal(p)]. *)
Definition rect (w : Widget) : QRect := mkQRect 0 0 (w_width w) (w_height w).

Definition mapFromGlobal (w : Widget) (p : QPoint) : QPoint :=
  mkQPoint (px p - px (w_origin w)) (py p - py (w_origin w)).

(** [obj.installEventFilter(f)]: a filter installed again moves to the
    front. *)
Definition installEventFilter (fid : nat) (fs : list nat) : list nat :=
  fid :: List.filter (fun g => negb (Nat.eqb g fid)) fs.

(** ** [_extract_border_radius] *)

(** [int(text)] for a run of decimal digits. *)
Definition digit_value (c : ascii) : Z := Z.of_N (N_of_ascii c) - 48.

Fixpoint int_acc (acc : Z) (s : string) : Z :=
  match s with
  | EmptyString => acc
  | String c r => int_acc (10 * acc + digit_value c) r
  end.

Definition int (s : string) : Z := int_acc 0 s.

(** The loop over [sources]: the first source with a match decides, by its
    last match. *)
Fixpoint first_radius (sources : list string) : Z :=
  match sources with
  | [] => 0
  | source :: more =>
      match last (Re.findall source) with
      | Some m => int m
      | None => first_radius more
      end
  end.

Definition _extract_border_radius (widget : Widget) (app : option string) : Z :=
  let sources :=
    ([w_styleSheet widget] ++ match app with Some sheet => [sheet] | None => [] end)%list in
  first_radius sources.

(** ** [_HoverGradientFilter] *)

(** [child.setMouseTracking(True); child.installEventFilter(self)] and the
    recursive call, for every child.  [findChildren] lists all
    descendants, so the source reaches a descendant once for each of its
    ancestors below the widget; both calls give the same state when they
    are repeated, and the descendants are visited here through their
    parents only. *)
Fixpoint _propagate_child (self : nat) (c : Child) : Child :=
  match c with
  | mkChild _ fs kids =>
      mkChild true (installEventFilter self fs) (map (_propagate_child self) kids)
  end.

Definition _propagate_mouse_tracking (self : nat) (w : Widget) : Widget :=
  mkWidget (w_width w) (w_height w) (w_origin w) (w_styleSheet w)
    (w_mouseTracking w) (w_styledBackground w) (w_eventFilters w)
    (w_destroyed_slots w) (map (_propagate_child self) (w_children w))
    (w_updates w) (paintEvent w)
    (_hg_enabled w) (_hg_cols w) (_hg_hover w) (_hg_pressed w) (_hg_pos w)
    (_hg_radius w) (_hg_orig_paint w) (_hg_filter w).

(** [target.destroyed.connect(self._on_dead)]. *)
Definition connect_destroyed (self : nat) (w : Widget) : Widget :=
  mkWidget (w_width w) (w_height w) (w_origin w) (w_styleSheet w)
    (w_mouseTracking w) (w_styledBackground w) (w_eventFilters w)
    (w_destroyed_slots w ++ [self])%list (w_children w)
    (w_updates w) (paintEvent w)
    (_hg_enabled w) (_hg_cols w) (_hg_hover w) (_hg_pressed w) (_hg_pos w)
    (_hg_radius w) (_hg_orig_paint w) (_hg_filter w).

(** [_HoverGradientFilter(target)]: the new filter's identity and the
    world with it. *)
Definition _HoverGradientFilter (target : nat) (world : World) : result (nat * World) :=
  w ← get_widget target world;
  let self := next_filter world in
  let world1 :=
    mkWorld (widgets world) (<[self := mkFilter (Some target) false]> (filters world))
            (S self) (app_styleSheet world) in
  let w1 := _propagate_mouse_tracking self (connect_destroyed self w) in
  Ok (self, set_widget target w1 world1).

Definition _on_dead (self : nat) (world : World) : result World :=
  f ← get_filter self world;
  Ok (set_filter self (mkFilter None true) world).

(** The branch of [eventFilter] taken when the target is alive. *)
Definition handle_event (target : Widget) (event : QEvent) : Widget :=
  match event with
  | MouseMove globalPos =>
      let inside := contains (rect target) (mapFromGlobal target globalPos) in
      if inside then
        let pos := mapFromGlobal target globalPos in
        let target1 :=
          if bool_decide (pos ≠ getattr (_hg_pos target) (mkQPoint 0 0))
          then update (set_hg_pos pos target)
          else target in
        set_hg_hover true target1
      else if getattr (_hg_hover target) false then
        update (set_hg_hover false target)
      else target
  | Enter pos => update (set_hg_pos pos (set_hg_hover true target))
  | Leave => update (set_hg_hover false target)
  | MouseButtonPress => update (set_hg_pressed true target)
  | MouseButtonRelease => update (set_hg_pressed false target)
  | OtherEvent _ => target
  end.

(** [eventFilter(self, watched, event)]; the value returned is that of
    [QObject.eventFilter], [False]. *)
Definition eventFilter (self : nat) (watched : nat) (event : QEvent) (world : World)
  : result (World * bool) :=
  f ← get_filter self world;
  match _target f with
  | None => Ok (world, false)
  | Some tid =>
      target ← get_widget tid world;
      Ok (set_widget tid (handle_event target event) world, false)
  end.

(** A run of events through the filter, each with the object it arrived
    on. *)
Fixpoint deliver (self : nat) (events : list (nat * QEvent)) (world : World)
  : result World :=
  match events with
  | [] => Ok world
  | (watched, event) :: more =>
      r ← eventFilter self watched event world;
      deliver self more r.1
  end.

(** The widget is destroyed: the slots connected to [destroyed] run, then
    the object is gone. *)
Fixpoint run_slots (slots : list nat) (world : World) : result World :=
  match slots with
  | [] => Ok world
  | fid :: more => world1 ← _on_dead fid world; run_slots more world1
  end.

Definition destroy (wid : nat) (world : World) : result World :=
  w ← get_widget wid world;
  world1 ← run_slots (w_destroyed_slots w) world;
  Ok (mkWorld (delete wid (widgets world1)) (filters world1)
              (next_filter world1) (app_styleSheet world1)).

(** ** Painting *)

Definition _draw_hover_gradient (widget : Widget) (path : QPainterPath) (opacity : Q)
  : result (list DrawOp) :=
  if negb (getattr (_hg_hover widget) false) then Ok []
  else
    pos ← attr "_hg_pos" (_hg_pos widget);
    if px pos <? 0 then Ok []
    else
      let pressed := getattr (_hg_pressed widget) false in
      let colours := getattr (_hg_cols widget) [QColor_of "#ffffff"] in
      match colours with
      | [] => Raise IndexError
      | accent :: _ =>
          let radius :=
            (inject_Z (Z.max (w_width widget) (w_height widget))
             * (if pressed then 6 # 10 else 9 # 10))%Q in
          let centre :=
            setAlpha accent (if pressed then opacity else (opacity * (6 # 10))%Q) in
          let edge :=
            match colours with
            | _ :: c1 :: _ => OfColor c1
            | _ => Qt_transparent
            end in
          Ok [FillPath path
                (mkGradient pos radius [(0%Q, OfColor centre); (1%Q, edge)])]
      end.

(** The closure [patched_paint] with its captured [original_paint] and
    [opacity]; [app] is the application's style sheet at the time of the
    call. *)
Definition patched_paint
    (original_paint : Widget -> result (Widget * list DrawOp))
    (opacity : Q) (app : option string) (self : Widget)
  : result (Widget * list DrawOp) :=
  '(self0, drawn) ← original_paint self;
  let '(radius, self1) :=
    match _hg_radius self0 with
    | Some radius => (radius, self0)
    | None =>
        let radius := _extract_border_radius self0 app in
        (radius, set_hg_radius radius self0)
    end in
  let path :=
    if 0 <? radius
    then RoundedRectPath (adjusted (rect self1) 0 0 (-1) (-1)) radius radius
    else RectPath (adjusted (rect self1) 0 0 (-1) (-1)) in
  overlay ← _draw_hover_gradient self1 path opacity;
  Ok (self1, (drawn ++ overlay)%list).

(** Calling the widget's [paintEvent]. *)
Fixpoint call_paint (p : PaintRoutine) (app : option string) (self : Widget)
  : result (Widget * list DrawOp) :=
  match p with
  | ClassPaint => Ok (self, [OwnDrawing])
  | PatchedPaint original opacity =>
      patched_paint (call_paint original app) opacity app self
  end.

(** The toolkit paints widget [wid]. *)
Definition paint_widget (wid : nat) (world : World) : result (World * list DrawOp) :=
  w ← get_widget wid world;
  '(w1, drawn) ← call_paint (paintEvent w) (app_styleSheet world) w;
  Ok (set_widget wid w1 world, drawn).

(** ** [enable_hover_gradient] *)

(** The argument [colours]: [None], one string, or a list of strings. *)
Inductive Colours : Type :=
| ColoursNone
| ColoursStr (c : string)
| ColoursList (cs : list string).

Definition enable_hover_gradient (wid : nat) (colours : Colours) (opacity : Q)
    (world : World) : result World :=
  widget ← get_widget wid world;
  if getattr (_hg_enabled widget) false then Ok world
  else
    let opacity := (255 * opacity)%Q in
    let colours :=
      match colours with
      | ColoursNone => ["#ffffff"]
      | ColoursStr c => [c]
      | ColoursList cs => cs
      end in
    let original_paint := paintEvent widget in
    let widget1 :=
      mkWidget (w_width widget) (w_height widget) (w_origin widget)
        (w_styleSheet widget) (w_mouseTracking widget)
        (w_styledBackground widget) (w_eventFilters widget)
        (w_destroyed_slots widget) (w_children widget) (w_updates widget)
        (PatchedPaint original_paint opacity)
        (Some true) (Some (map QColor_of colours)) (Some false) (Some false)
        (Some (mkQPoint (-1) (-1))) (_hg_radius widget)
        (Some original_paint) (_hg_filter widget) in
    '(hover_filter, world1) ← _HoverGradientFilter wid (set_widget wid widget1 world);
    widget2 ← get_widget wid world1;
    let widget3 :=
      mkWidget (w_width widget2) (w_height widget2) (w_origin widget2)
        (w_styleSheet widget2) true true
        (installEventFilter hover_filter (w_eventFilters widget2))
        (w_destroyed_slots widget2) (w_children widget2) (w_updates widget2)
        (paintEvent widget2)
        (_hg_enabled widget2) (_hg_cols widget2) (_hg_hover widget2)
        (_hg_pressed widget2) (_hg_pos widget2) (_hg_radius widget2)
        (_hg_orig_paint widget2) (Some hover_filter) in
    Ok (set_widget wid widget3 world1).

(** ** [material_icons] *)

(** The two tables [_material_icons()] and [_material_icons_filled()]
    return, each read once from its JSON file and cached. *)
Record Catalog : Type := mkCatalog {
  _material_icons : gmap string string;
  _material_icons_filled : gmap string string
}.

(** [d[key]]. *)
Definition getitem (d : gmap string string) (key : string) : result string :=
  match d !! key with
  | Some v => Ok v
  | None => Raise (KeyError key)
  end.

(** [key in d]. *)
Definition contains_key (d : gmap string string) (key : string) : bool :=
  bool_decide (is_Some (d !! key)).

(** A [QColor] by its channels, as [getRgb()] and [red()] ... [alpha()]
    give them. *)
Record RGBA : Type := mkRGBA { red : Z; green : Z; blue : Z; alpha : Z }.

Definition getRgb (c : RGBA) : list Z := [red c; green c; blue c; alpha c].

(** [QGuiApplication.palette()], as far as [paint] reads it. *)
Record QPalette : Type := mkQPalette {
  text : RGBA;
  disabled_text : RGBA
}.

(** [QIcon.Mode]. *)
Inductive Mode : Type := Normal | Disabled | Active | Selected.

(** The argument [color] and the attribute [_MaterialIconEngine.color]:
    [None], a [str], a [dict], a [tuple], a [QColor], or any other
    object. *)
Inductive ColorSpec : Type :=
| ColorNone
| ColorStr (hex : string)
| ColorDict (by_appearance : gmap string string)
| ColorTuple (values : list Z)
| ColorQColor (c : RGBA)
| ColorOther (repr : string).

Section MaterialIcons.

(** The class [Color] of [bec_qthemes._color] is not part of the sources
    at hand: its type and its two constructors are parameters. *)
Variable Color : Type.
Variable from_rgba : list Z -> result Color.
Variable from_hex : string -> result Color.

(** An instance of [_MaterialIconSVG]. *)
Record _MaterialIconSVG : Type := mkSVG {
  _id : string;
  _color : option Color;
  _rotate : option Z;
  _source : string
}.

(** [_MaterialIconSVG.__init__]. *)
Definition _MaterialIconSVG_init (cat : Catalog) (id : string) (filled : bool)
  : result _MaterialIconSVG :=
  source ←
    (if filled then
       if negb (contains_key (_material_icons_filled cat) id)
       then getitem (_material_icons cat) id
       else getitem (_material_icons_filled cat) id
     else getitem (_material_icons cat) id);
  Ok (mkSVG id None None source).

(** An instance of [_MaterialIconEngine]. *)
Record _MaterialIconEngine : Type := mkEngine {
  _svg : _MaterialIconSVG;
  color : ColorSpec
}.

Definition _MaterialIconEngine_init (svg : _MaterialIconSVG) : _MaterialIconEngine :=
  mkEngine svg ColorNone.

(** The colour [paint] settles on, lines 69 to 90. *)
Definition paint_color (palette : QPalette) (self : _MaterialIconEngine) (mode : Mode)
  : result Color :=
  match color self with
  | ColorNone =>
      match mode with
      | Disabled => from_rgba (getRgb (disabled_text palette))
      | _ => from_rgba (getRgb (text palette))
      end
  | ColorStr hex => from_hex hex
  | ColorDict _ => from_rgba (getRgb (text palette))
  | ColorTuple values => from_rgba values
  | ColorQColor c => from_rgba [red c; green c; blue c; alpha c]
  | ColorOther _ => from_hex "#000000"
  end.

(** [paint]: the svg with the colour applied, rendered into [rect]. *)
Definition paint (palette : QPalette) (self : _MaterialIconEngine) (rect : QRect)
    (mode : Mode) : result (_MaterialIconSVG * QRect) :=
  c ← paint_color palette self mode;
  let svg := _svg self in
  Ok (mkSVG (_id svg) (Some c) (_rotate svg) (_source svg), rect).

(** The argument [icon_type]: the class [QIcon], the class [QPixmap], or
    another object. *)
Inductive IconType : Type :=
| QIcon_type
| QPixmap_type
| other_type (name : string).

(** The argument [size]: [None], a [tuple] of two [int], or a [QSize]. *)
Inductive SizeArg : Type :=
| SizeNone
| SizeTuple (w h : Z)
| SizeQSize (w h : Z).

Record QPixmap : Type := mkQPixmap {
  pm_width : Z;
  pm_height : Z;
  pm_engine : _MaterialIconEngine;
  pm_mode : option Mode
}.

Inductive Icon : Type :=
| AsQIcon (engine : _MaterialIconEngine)
| AsQPixmap (pixmap : QPixmap).

(** Modelled from the spec: [Svg.rotate] of [bec_qthemes._icon.svg_util],
    not part of the sources at hand.  The spec: "If rotation != 0, apply a
    rotation transform to the path data before coloring"; the transform is
    kept in the attribute [_rotate] that [__init__] prepares. *)
Definition rotate (svg : _MaterialIconSVG) (degrees : Z) : _MaterialIconSVG :=
  mkSVG (_id svg) (_color svg) (Some degrees) (_source svg).

(** Modelled from the spec: [SvgIconEngine.pixmap] of
    [bec_qthemes._icon.icon_engine], not part of the sources at hand.  The
    spec: "Rasterize into the requested pixel size". *)
Definition pixmap (self : _MaterialIconEngine) (size : Z * Z) (mode : option Mode)
  : QPixmap :=
  mkQPixmap size.1 size.2 self mode.

Definition material_icon (cat : Catalog) (icon_name : string) (size : SizeArg)
    (color : ColorSpec) (rotate_by : Z) (mode : option Mode) (filled : bool)
    (icon_type : IconType) : result Icon :=
  svg ← _MaterialIconSVG_init cat icon_name filled;
  let svg := if bool_decide (rotate_by ≠ 0) then rotate svg rotate_by else svg in
  let icon := _MaterialIconEngine_init svg in
  let icon :=
    match color with
    | ColorNone => icon
    | _ => mkEngine (_svg icon) color
    end in
  match icon_type with
  | QIcon_type => Ok (AsQIcon icon)
  | QPixmap_type =>
      let size :=
        match size with
        | SizeNone => (50, 50)
        | SizeTuple w h => (w, h)
        | SizeQSize w h => (w, h)
        end in
      Ok (AsQPixmap (pixmap icon size mode))
  | other_type _ => Raise (TypeError "icon_type must be QIcon or QPixmap")
  end.

End MaterialIcons.

Arguments mkSVG {Color} _ _ _ _.
Arguments _id {Color} _.
Arguments _color {Color} _.
Arguments _rotate {Color} _.
Arguments _source {Color} _.
Arguments _MaterialIconSVG_init {Color} cat id filled.
Arguments mkEngine {Color} _ _.
Arguments _svg {Color} _.
Arguments color {Color} _.
Arguments _MaterialIconEngine_init {Color} svg.
Arguments paint_color {Color} from_rgba from_hex palette self mode.
Arguments paint {Color} from_rgba from_hex palette self rect mode.
Arguments mkQPixmap {Color} _ _ _ _.
Arguments pm_width {Color} _.
Arguments pm_height {Color} _.
Arguments pm_engine {Color} _.
Arguments pm_mode {Color} _.
Arguments AsQIcon {Color} engine.
Arguments AsQPixmap {Color} pixmap.
Arguments rotate {Color} svg degrees.
Arguments pixmap {Color} self size mode.
Arguments material_icon {Color} cat icon_name size color rotate_by mode filled icon_type.

(** ** Values used in examples *)

(** A widget as its class builds it: nothing attached, no children. *)
Definition plain_widget (width height : Z) (styleSheet : string) : Widget :=
  mkWidget width height (mkQPoint 0 0) styleSheet false false [] [] [] 0
    ClassPaint None None None None None None None None.

(** One live widget, number 0, no filter yet, and an application whose
    style sheet is empty. *)
Definition one_widget (w : Widget) : World :=
  mkWorld {[ 0%nat := w ]} ∅ 0 (Some "").

(** ** Words of the specification *)

(** [clamp(x, lo, hi)]. *)
Definition clamp (x lo hi : Q) : Q :=
  if Qlt_le_dec x lo then lo else if Qlt_le_dec hi x then hi else x.

(** The alpha ceiling a paint routine carries. *)
Definition stored_opacity (p : PaintRoutine) : option Q :=
  match p with
  | PatchedPaint _ opacity => Some opacity
  | ClassPaint => None
  end.

(** The widget [enable_hover_gradient] leaves behind when it attaches
    filter [fid] to [widget]. *)
Definition decorated (fid : nat) (colours : Colours) (opacity : Q) (widget : Widget)
  : Widget :=
  mkWidget (w_width widget) (w_height widget) (w_origin widget)
    (w_styleSheet widget) true true
    (installEventFilter fid (w_eventFilters widget))
    (w_destroyed_slots widget ++ [fid])%list
    (map (_propagate_child fid) (w_children widget)) (w_updates widget)
    (PatchedPaint (paintEvent widget) (255 * opacity)%Q)
    (Some true)
    (Some (map QColor_of
             match colours with
             | ColoursNone => ["#ffffff"]
             | ColoursStr c => [c]
             | ColoursList cs => cs
             end))
    (Some false) (Some false) (Some (mkQPoint (-1) (-1))) (_hg_radius widget)
    (Some (paintEvent widget)) (Some fid).

(** ** The overlay *)

(** The gradient of steps 3 to 5 of the specification's [composeOverlay]. *)
Definition hover_gradient (width height : Z) (pressed : bool) (pointer : QPoint)
    (accent : QColor) (more : list QColor) (opacity : Q) : QRadialGradient :=
  mkGradient pointer
    (inject_Z (Z.max width height) * (if pressed then 6 # 10 else 9 # 10))%Q
    [(0%Q, OfColor (setAlpha accent (if pressed then opacity else opacity * (6 # 10))%Q));
     (1%Q, match more with
           | edge :: _ => OfColor edge
           | [] => Qt_transparent
           end)].

(** The never-entered sentinel: the point [enable_hover_gradient] stores
    at attachment. *)
Definition sentinel : QPoint := mkQPoint (-1) (-1).

(** The overlay in the specification's words: nothing when [hovering] is
    false or the pointer is the sentinel; otherwise the clip path filled
    with the gradient. *)
Definition specified_overlay (width height : Z) (hovering pressed : bool)
    (pointer : QPoint) (accent : QColor) (more : list QColor) (opacity : Q)
    (path : QPainterPath) : list DrawOp :=
  if negb hovering || bool_decide (pointer = sentinel) then []
  else [FillPath path (hover_gradient width height pressed pointer accent more opacity)].

(** A hover state the listener reaches: the pointer enters at (-5, 3). *)
Definition entered_left : Widget :=
  handle_event (decorated 0 ColoursNone 1 (plain_widget 100 40 ""))
    (Enter (mkQPoint (-5) 3)).

(** The world after [enable_hover_gradient(widget)] on a plain widget of
    100 by 40 pixels: widget 0 carries filter 0. *)
Definition decorated_world : World :=
  mkWorld {[ 0%nat := decorated 0 ColoursNone 1 (plain_widget 100 40 "") ]}
          {[ 0%nat := mkFilter (Some 0%nat) false ]} 1 (Some "").

(** The decorated widget is deleted while its filter still refers to it:
    what the world would be without the destruction notification. *)
Definition dangling_world : World :=
  mkWorld ∅ {[ 0%nat := mkFilter (Some 0%nat) false ]} 1 (Some "").

(** ** Corner-radius declarations, in the specification's words *)

(** The declarations of a style text: the number captured at every
    position of the text where the pattern matches, first to last. *)
Fixpoint declarations (s : string) : list string :=
  match s with
  | EmptyString => []
  | String _ r =>
      match Re.match_here s with
      | Some (ds, _) => ds :: declarations r
      | None => declarations r
      end
  end.

Fixpoint all_chars (p : ascii -> bool) (s : string) : bool :=
  match s with
  | EmptyString => true
  | String c r => p c && all_chars p r
  end.

Definition not_b (c : ascii) : bool := negb (Ascii.eqb c "b").

(** ** The life of a decorated widget between paints *)

(** What the host and the toolkit do to a decorated widget: repaint it,
    deliver an event to its listener, replace its style text, replace the
    application's style text. *)
Inductive HostAction : Type :=
| Repaint
| Deliver (event : QEvent)
| SetStyleSheet (text : string)
| SetAppStyleSheet (sheet : option string).

(** A run of such actions on a live widget: the widget and the
    application's style text at the end, and everything painted on the
    way. *)
Fixpoint host_run (actions : list HostAction) (w : Widget) (app : option string)
  : result (Widget * option string * list DrawOp) :=
  match actions with
  | [] => Ok (w, app, [])
  | Repaint :: more =>
      '(w1, drawn) ← call_paint (paintEvent w) app w;
      '(w2, app2, later) ← host_run more w1 app;
      Ok (w2, app2, (drawn ++ later)%list)
  | Deliver event :: more => host_run more (handle_event w event) app
  | SetStyleSheet text :: more => host_run more (setStyleSheet text w) app
  | SetAppStyleSheet sheet :: more => host_run more w sheet
  end.

(** A hover state [_draw_hover_gradient] can paint: the pointer attribute
    is set and there is an accent stop. *)
Definition paintable (w : Widget) : Prop :=
  is_Some (_hg_pos w)
  /\ getattr (_hg_cols w) [QColor_of "#ffffff"] <> [].

(** The corner radius a clip path is drawn with. *)
Definition corner_radius (path : QPainterPath) : Z :=
  match path with
  | RoundedRectPath _ xRadius _ => xRadius
  | RectPath _ => 0
  end.

Definition drawn_with (radius : Z) (op : DrawOp) : Prop :=
  match op with
  | FillPath path _ => corner_radius path = radius
  | OwnDrawing => True
  end.

(** A decorated widget of 100 by 40 pixels whose own style text declares a
    corner radius of 4 pixels, not yet painted. *)
Definition rounded_widget : Widget :=
  decorated 0 ColoursNone 1 (plain_widget 100 40 "QFrame { border-radius: 4px; }").

(** The pointer enters, both style texts change, then the widget is
    repainted. *)
Definition restyle_and_repaint : list HostAction :=
  [Deliver (Enter (mkQPoint 3 4));
   SetStyleSheet "QFrame { border-radius: 99px; }";
   SetAppStyleSheet (Some "* { border-radius: 50px; }");
   Repaint].

(** ** Icons, in the specification's words *)

(** The table ultimately consulted for [(name, filled)]: the filled table
    when the filled variant is asked for and has the name, the outline
    table otherwise. *)
Definition consulted (cat : Catalog) (name : string) (filled : bool)
  : gmap string string :=
  if filled && contains_key (_material_icons_filled cat) name
  then _material_icons_filled cat
  else _material_icons cat.

(** The pixel size asked for, 50 by 50 when none is given. *)
Definition requested_size (size : SizeArg) : Z * Z :=
  match size with
  | SizeNone => (50, 50)
  | SizeTuple w h => (w, h)
  | SizeQSize w h => (w, h)
  end.

(** Modelled from the spec: [Color.from_rgba] of [bec_qthemes._color], not
    part of the sources at hand.  The spec: "ResolvedColor: concrete RGBA
    quadruple" and "an explicit RGB/RGBA tuple ... used verbatim"; the
    alpha of an RGB triple is taken to be 255. *)
Definition Color_from_rgba (values : list Z) : result RGBA :=
  match values with
  | [r; g; b] => Ok (mkRGBA r g b 255)
  | [r; g; b; a] => Ok (mkRGBA r g b a)
  | _ => Raise (TypeError "from_rgba() takes 3 or 4 values")
  end.

Definition hex_digit (c : ascii) : option Z :=
  let n := Z.of_N (N_of_ascii c) in
  if (48 <=? n) && (n <=? 57) then Some (n - 48)
  else if (97 <=? n) && (n <=? 102) then Some (n - 87)
  else if (65 <=? n) && (n <=? 70) then Some (n - 55)
  else None.

Definition hex_byte (hi lo : ascii) : option Z :=
  h ← hex_digit hi; l ← hex_digit lo; Some (16 * h + l).

(** Modelled from the spec: [Color.from_hex] of [bec_qthemes._color], not
    part of the sources at hand.  The spec: "a hex string: parse
    directly", and [#ff0000] "yields pure red". *)
Definition Color_from_hex (hex : string) : result RGBA :=
  match hex with
  | String "#" (String r1 (String r0 (String g1 (String g0
      (String b1 (String b0 EmptyString)))))) =>
      match hex_byte r1 r0, hex_byte g1 g0, hex_byte b1 b0 with
      | Some r, Some g, Some b => Ok (mkRGBA r g b 255)
      | _, _, _ => Raise (ValueError "invalid hex colour")
      end
  | _ => Raise (ValueError "invalid hex colour")
  end.

(** An icon set with [close] and [settings] in the outline table and only
    [close] in the filled one. *)
Definition two_icons : Catalog :=
  mkCatalog {[ "close" := "<svg>close</svg>"; "settings" := "<svg>settings</svg>" ]}
            {[ "close" := "<svg>close filled</svg>" ]}.

Definition grey_palette : QPalette :=
  mkQPalette (mkRGBA 20 20 20 255) (mkRGBA 120 120 120 255).

(** ** More words for the hover overlay *)

(** The widget as a paint leaves it: the radius memoized if it was not. *)
Definition memoized (w : Widget) (app : option string) : Widget :=
  match _hg_radius w with
  | Some _ => w
  | None => set_hg_radius (_extract_border_radius w app) w
  end.

(** The radius a paint clips by. *)
Definition paint_radius (w : Widget) (app : option string) : Z :=
  match _hg_radius w with
  | Some radius => radius
  | None => _extract_border_radius w app
  end.

(** The clip path of the overlay: the widget's rectangle without its last
    column and row of pixels, rounded when the radius is positive. *)
Definition clip_path (w : Widget) (radius : Z) : QPainterPath :=
  if 0 <? radius
  then RoundedRectPath (mkQRect 0 0 (w_width w - 1) (w_height w - 1)) radius radius
  else RectPath (mkQRect 0 0 (w_width w - 1) (w_height w - 1)).

(** Two widgets that differ at most in the hover state and in the count
    of repaint requests. *)
Definition same_but_hover (w w' : Widget) : Prop :=
  w_width w' = w_width w
  /\ w_height w' = w_height w
  /\ w_origin w' = w_origin w
  /\ w_styleSheet w' = w_styleSheet w
  /\ w_mouseTracking w' = w_mouseTracking w
  /\ w_styledBackground w' = w_styledBackground w
  /\ w_eventFilters w' = w_eventFilters w
  /\ w_destroyed_slots w' = w_destroyed_slots w
  /\ w_children w' = w_children w
  /\ paintEvent w' = paintEvent w
  /\ _hg_enabled w' = _hg_enabled w
  /\ _hg_cols w' = _hg_cols w
  /\ _hg_radius w' = _hg_radius w
  /\ _hg_orig_paint w' = _hg_orig_paint w
  /\ _hg_filter w' = _hg_filter w.

(** An event that can start the glow: a pointer-enter, or a pointer-move
    to a place inside the widget. *)
Definition arrives (w : Widget) (event : QEvent) : bool :=
  match event with
  | Enter _ => true
  | MouseMove globalPos => contains (rect w) (mapFromGlobal w globalPos)
  | _ => false
  end.

(** The events of a run, applied to the target one after the other. *)
Definition handle_events (w : Widget) (events : list QEvent) : Widget :=
  fold_left handle_event events w.

(** A decorated widget of 100 by 40 pixels at (10, 20) on the screen. *)
Definition placed_widget : Widget :=
  mkWidget 100 40 (mkQPoint 10 20) "" true true [0%nat] [0%nat] [] 0
    (PatchedPaint ClassPaint 255) (Some true) (Some [QColor_of "#ffffff"])
    (Some false) (Some false) (Some (mkQPoint (-1) (-1))) None
    (Some ClassPaint) (Some 0%nat).

(** ** The descendants of a widget *)

Definition c_mouseTracking (c : Child) : bool :=
  match c with mkChild tracking _ _ => tracking end.

Definition c_eventFilters (c : Child) : list nat :=
  match c with mkChild _ fs _ => fs end.

Definition c_children (c : Child) : list Child :=
  match c with mkChild _ _ kids => kids end.

(** A child and all that is below it, parents first. *)
Fixpoint subtree (c : Child) : list Child :=
  match c with
  | mkChild _ _ kids => c :: concat (map subtree kids)
  end.

(** [widget.findChildren(QWidget)]: every descendant, at any depth. *)
Definition findChildren (w : Widget) : list Child :=
  concat (map subtree (w_children w)).

(** How often filter [fid] is installed on an object. *)
Definition installed (fid : nat) (fs : list nat) : nat :=
  length (List.filter (Nat.eqb fid) fs).

(** What [_propagate_mouse_tracking] leaves on a descendant: mouse
    tracking on, and the filter installed once, in front. *)
Definition reached (fid : nat) (c : Child) : Prop :=
  c_mouseTracking c = true
  /\ head (c_eventFilters c) = Some fid
  /\ installed fid (c_eventFilters c) = 1%nat.

(** A widget with a child that has two children of its own, one of them
    with a filter of another decoration. *)
Definition family : Widget :=
  mkWidget 100 40 (mkQPoint 0 0) "" false false [] [] 
    [mkChild false [] [mkChild false [7%nat] []; mkChild true [] []]] 0
    ClassPaint None None None None None None None None.

(** The text of a corner-radius declaration: the keyword, blanks, a
    colon, blanks, the digits. *)
Definition declaration (ws1 ws2 ds : string) : string :=
  "border-radius" ++ ws1 ++ ":" ++ ws2 ++ ds.

(** The text does not go on with a digit. *)
Definition no_digit_ahead (s : string) : bool :=
  match s with
  | String c _ => negb (Re.is_digit c)
  | EmptyString => true
  end.

(** ** Loading the icon tables *)

(** What [functools.lru_cache] holds for the two loaders, which take no
    argument: the value of the first call that returned ([None]: no call
    has returned yet; a call that raises stores nothing). *)
Record IconCache : Type := mkIconCache {
  cached_icons : option (gmap string string);
  cached_icons_filled : option (gmap string string)
}.

Definition empty_cache : IconCache := mkIconCache None None.

Module Loader.

Section Loader.

(** [open(path, "r", encoding="utf-8").read()] on the file system of the
    moment, and [json.loads]: both belong to Python, not to this
    package. *)
Variable json_loads : string -> result (gmap string string).

(** The directory [dirname(dirname(dirname(abspath(__file__))))]. *)
Variable root : string.

Definition icons_file : string := root ++ "/style/svg/all_material_icons.json".

Definition icons_filled_file : string :=
  root ++ "/style/svg/all_material_icons_filled.json".

(** The body of both loaders: read the file, parse it. *)
Definition load (fs : string -> result string) (icons_file : string)
  : result (gmap string string) :=
  data ← fs icons_file;
  json_loads data.

(** [_material_icons()] under [lru_cache]: the value and the cache after
    the call. *)
Definition _material_icons (fs : string -> result string) (cache : IconCache)
  : result (gmap string string) * IconCache :=
  match cached_icons cache with
  | Some icons => (Ok icons, cache)
  | None =>
      match load fs icons_file with
      | Ok icons => (Ok icons, mkIconCache (Some icons) (cached_icons_filled cache))
      | Raise e => (Raise e, cache)
      end
  end.

(** [_material_icons_filled()] under [lru_cache]. *)
Definition _material_icons_filled (fs : string -> result string) (cache : IconCache)
  : result (gmap string string) * IconCache :=
  match cached_icons_filled cache with
  | Some icons => (Ok icons, cache)
  | None =>
      match load fs icons_filled_file with
      | Ok icons => (Ok icons, mkIconCache (cached_icons cache) (Some icons))
      | Raise e => (Raise e, cache)
      end
  end.

Variable Color : Type.

(** The last statement of each branch of [__init__]:
    [self._source = table()[id]]. *)
Definition source_from
    (table : IconCache -> result (gmap string string) * IconCache)
    (id : string) (cache : IconCache)
  : result (_MaterialIconSVG Color) * IconCache :=
  match table cache with
  | (Ok icons, cache1) =>
      (source ← getitem icons id; Ok (mkSVG id None None source), cache1)
  | (Raise e, cache1) => (Raise e, cache1)
  end.

(** [_MaterialIconSVG.__init__], with the calls of the loaders it makes,
    in the order it makes them. *)
Definition _MaterialIconSVG_init (fs : string -> result string)
    (id : string) (filled : bool) (cache : IconCache)
  : result (_MaterialIconSVG Color) * IconCache :=
  if filled then
    match _material_icons_filled fs cache with
    | (Ok icons_filled, cache1) =>
        if negb (contains_key icons_filled id)
        then source_from (_material_icons fs) id cache1
        else source_from (_material_icons_filled fs) id cache1
    | (Raise e, cache1) => (Raise e, cache1)
    end
  else source_from (_material_icons fs) id cache.

End Loader.

End Loader.

(** A file system with the two icon files below [/opt/bec], and one where
    the file of filled icons cannot be opened. *)
Definition json_of_test (data : string) : result (gmap string string) :=
  if String.eqb data "outline" then
    Ok {[ "close" := "<svg>close</svg>"; "settings" := "<svg>settings</svg>" ]}
  else if String.eqb data "filled" then
    Ok {[ "close" := "<svg>close filled</svg>" ]}
  else Raise (ValueError "Expecting value").

Definition both_files (path : string) : result string :=
  if String.eqb path "/opt/bec/style/svg/all_material_icons.json"
  then Ok "outline"
  else if String.eqb path "/opt/bec/style/svg/all_material_icons_filled.json"
  then Ok "filled"
  else Raise (RuntimeError "No such file or directory").

Definition outline_file_only (path : string) : result string :=
  if String.eqb path "/opt/bec/style/svg/all_material_icons.json"
  then Ok "outline"
  else Raise (RuntimeError "No such file or directory").

Definition no_files (path : string) : result string :=
  Raise (RuntimeError "No such file or directory").

(** ** [apply_theme]: the mapping of a theme *)

Module Main.

Section Mapping.

(** The items of the dict [DEFAULT_RADIUS] of
    [bec_qthemes.qss_editor.qss_editor], in its order; the module is not
    part of the sources at hand. *)
Variable DEFAULT_RADIUS : list (string * string).

(** [QColor(name)] with its channels [red()], [green()], [blue()], from
    Qt. *)
Variable QColor_rgb : string -> result RGBA.

(** [mapping.setdefault(k, v)]. *)
Definition setdefault (mapping : gmap string string) (k v : string)
  : gmap string string :=
  match mapping !! k with
  | Some _ => mapping
  | None => <[k := v]> mapping
  end.

(** Lines 73-74: the radius defaults. *)
Definition radius_defaults (mapping : gmap string string) : gmap string string :=
  fold_left (fun m kv => setdefault m kv.1 kv.2) DEFAULT_RADIUS mapping.

(** Lines 76-79: the aliases [INPUT_BG] and [FIELD_BG]. *)
Definition normalize_aliases (mapping : gmap string string) : gmap string string :=
  let mapping :=
    match mapping !! "INPUT_BG", mapping !! "FIELD_BG" with
    | Some input_bg, None => <["FIELD_BG" := input_bg]> mapping
    | _, _ => mapping
    end in
  match mapping !! "FIELD_BG" with
  | Some field_bg => <["INPUT_BG" := field_bg]> mapping
  | None => mapping
  end.

(** [mapping.get(key, default)]. *)
Definition get (mapping : gmap string string) (key default : string) : string :=
  match mapping !! key with
  | Some v => v
  | None => default
  end.

(** Line 84: [(c.red() * 299 + c.green() * 587 + c.blue() * 114) / 1000],
    a true division. *)
Definition yiq (c : RGBA) : Q :=
  (inject_Z (red c * 299 + green c * 587 + blue c * 114) / 1000)%Q.

(** Lines 81-87: [ON_PRIMARY], black on a light primary colour and white
    on a dark one, white too when anything is raised. *)
Definition ensure_on_primary (mapping : gmap string string) : gmap string string :=
  match mapping !! "ON_PRIMARY" with
  | Some _ => mapping
  | None =>
      match QColor_rgb (get mapping "PRIMARY" "#3b82f6") with
      | Ok c =>
          <["ON_PRIMARY" := if Qle_bool 140 (yiq c) then "#000000" else "#ffffff"]>
            mapping
      | Raise _ => <["ON_PRIMARY" := "#ffffff"]> mapping
      end
  end.

(** Lines 73-87 of [apply_theme], between [read_theme_xml] and
    [_augment_mapping_with_derived]. *)
Definition normalize (mapping : gmap string string) : gmap string string :=
  ensure_on_primary (normalize_aliases (radius_defaults mapping)).

End Mapping.

End Main.

(** The first value the items hold for a key. *)
Fixpoint first_item (items : list (string * string)) (key : string) : option string :=
  match items with
  | [] => None
  | (k, v) :: more => if String.eqb k key then Some v else first_item more key
  end.

(** What a theme gives for a key: its own value, else the first default
    for the key. *)
Definition given (defaults : list (string * string)) (mapping : gmap string string)
    (key : string) : option string :=
  match mapping !! key with
  | Some v => Some v
  | None => first_item defaults key
  end.

(** The keys the normalisation may write besides the defaults. *)
Definition alias_or_on_primary (key : string) : Prop :=
  key = "INPUT_BG" \/ key = "FIELD_BG" \/ key = "ON_PRIMARY".

(** Example values: two radius defaults, a colour parser that knows three
    names. *)
Definition two_radii : list (string * string) :=
  [("RADIUS", "6px"); ("RADIUS_SMALL", "3px")].

Definition three_colors (name : string) : result RGBA :=
  if String.eqb name "#ffffff" then Ok (mkRGBA 255 255 255 255)
  else if String.eqb name "#3b82f6" then Ok (mkRGBA 59 130 246 255)
  else if String.eqb name "#000000" then Ok (mkRGBA 0 0 0 255)
  else Raise (ValueError "unknown colour").

Definition light_theme : gmap string string :=
  {[ "PRIMARY" := "#ffffff"; "INPUT_BG" := "#eeeeee"; "RADIUS" := "0px" ]}.

(** ** What an event leaves in the store *)

(** Event [event], arriving on [watched], goes through filter [self]: the
    filter returns [False], the store then holds under [tid] a widget
    with property [P], every other widget is as it was, and so are the
    filters. *)
Definition event_leaves (self watched : nat) (event : QEvent) (world : World)
    (tid : nat) (P : Widget -> Prop) : Prop :=
  exists world' target',
    eventFilter self watched event world = Ok (world', false)
    /\ widgets world' !! tid = Some target'
    /\ (forall wid, wid <> tid -> widgets world' !! wid = widgets world !! wid)
    /\ filters world' = filters world
    /\ P target'.

(** ** Corner-radius declarations as text *)

(** The value of a decimal digit, by the table of the ten digits. *)
Definition digit_of (c : ascii) : Z :=
  match c with
  | "0"%char => 0 | "1"%char => 1 | "2"%char => 2 | "3"%char => 3
  | "4"%char => 4 | "5"%char => 5 | "6"%char => 6 | "7"%char => 7
  | "8"%char => 8 | "9"%char => 9
  | _ => 0
  end.

(** The number a run of decimal digits writes: each digit times the power
    of ten of its place. *)
Fixpoint decimal_value (ds : string) : Z :=
  match ds with
  | EmptyString => 0
  | String c r => digit_of c * 10 ^ Z.of_nat (String.length r) + decimal_value r
  end.

(** The text holds a corner-radius declaration somewhere: the keyword,
    blanks, a colon, blanks and at least one digit. *)
Definition has_declaration (s : string) : Prop :=
  exists pre ws1 ws2 ds rest,
    s = pre ++ declaration ws1 ws2 ds ++ rest
    /\ all_chars Re.is_space ws1 = true
    /\ all_chars Re.is_space ws2 = true
    /\ all_chars Re.is_digit ds = true
    /\ ds <> "".

(** The last declaration of the text writes the digits [ds]: the digits
    end there, and no declaration follows. *)
Definition last_declaration (s ds : string) : Prop :=
  exists pre ws1 ws2 tail,
    s = pre ++ declaration ws1 ws2 ds ++ tail
    /\ all_chars Re.is_space ws1 = true
    /\ all_chars Re.is_space ws2 = true
    /\ all_chars Re.is_digit ds = true
    /\ ds <> ""
    /\ no_digit_ahead tail = true
    /\ ~ has_declaration tail.

(** * Properties *)

Lemma get_set_widget wid w world : get_widget wid (set_widget wid w world) = Ok w.
Proof. unfold get_widget, set_widget; simpl. by rewrite lookup_insert_eq. Qed.

Lemma set_set_widget wid w1 w2 world :
  set_widget wid w2 (set_widget wid w1 world) = set_widget wid w2 world.
Proof. unfold set_widget; simpl. by rewrite insert_insert_eq. Qed.

Lemma get_widget_Some wid w world :
  widgets world !! wid = Some w -> get_widget wid world = Ok w.
Proof. unfold get_widget. by intros ->. Qed.

(** The first attachment, in one step. *)
Lemma enable_hover_gradient_fresh wid colours opacity world widget :
  widgets world !! wid = Some widget ->
  getattr (_hg_enabled widget) false = false ->
  enable_hover_gradient wid colours opacity world
  = Ok (mkWorld
          (<[wid := decorated (next_filter world) colours opacity widget]> (widgets world))
          (<[next_filter world := mkFilter (Some wid) false]> (filters world))
          (S (next_filter world)) (app_styleSheet world)).
Proof.
  intros Hw Hen. unfold enable_hover_gradient.
  rewrite (get_widget_Some _ _ _ Hw). cbn [mbind result_bind]. rewrite Hen.
  unfold _HoverGradientFilter. rewrite get_set_widget. cbn [mbind result_bind].
  rewrite get_set_widget. cbn [mbind result_bind].
  rewrite set_set_widget. unfold set_widget; simpl.
  rewrite insert_insert_eq. reflexivity.
Qed.

(** An attached widget stays attached: the second and later calls. *)
Lemma enable_hover_gradient_again wid colours opacity world widget :
  widgets world !! wid = Some widget ->
  getattr (_hg_enabled widget) false = true ->
  enable_hover_gradient wid colours opacity world = Ok world.
Proof.
  intros Hw Hen. unfold enable_hover_gradient.
  rewrite (get_widget_Some _ _ _ Hw). cbn [mbind result_bind]. by rewrite Hen.
Qed.

(** C1, as the specification words it, fails: with the multiplier 2 the
    ceiling stored is 510, not 255 * clamp(2, 0, 1) = 255, and it lies
    outside [0, 255]. *)
Lemma opacity_not_clamped :
  exists world' widget' stored,
    enable_hover_gradient 0 ColoursNone 2 (one_widget (plain_widget 100 40 ""))
    = Ok world'
    /\ widgets world' !! 0%nat = Some widget'
    /\ stored_opacity (paintEvent widget') = Some stored
    /\ ~ (stored == 255 * clamp 2 0 1)%Q
    /\ ~ (stored <= 255)%Q.
Proof.
  eexists _, _, _. split; [|split; [|split; [|split]]].
  - apply (enable_hover_gradient_fresh _ _ _ _ _ (lookup_singleton_eq _ _)).
    reflexivity.
  - simpl. apply lookup_insert_eq.
  - reflexivity.
  - vm_compute. discriminate.
  - vm_compute. intros H. apply H. reflexivity.
Qed.

(** C1, amended: the first call of [enable_hover_gradient] on a widget
    stores the alpha ceiling 255 * opacity, with no clamping; the ceiling
    lies in [0, 255] exactly when the multiplier lies in [0, 1]. *)
Theorem enable_hover_gradient_opacity wid colours (opacity : Q) world widget :
  widgets world !! wid = Some widget ->
  getattr (_hg_enabled widget) false = false ->
  exists world' widget',
    enable_hover_gradient wid colours opacity world = Ok world'
    /\ widgets world' !! wid = Some widget'
    /\ stored_opacity (paintEvent widget') = Some (255 * opacity)%Q
    /\ ((0 <= 255 * opacity /\ 255 * opacity <= 255)%Q
        <-> (0 <= opacity /\ opacity <= 1)%Q).
Proof.
  intros Hw Hen. eexists _, _.
  split; [apply (enable_hover_gradient_fresh _ _ _ _ _ Hw Hen)|].
  split; [simpl; apply lookup_insert_eq|].
  split; [reflexivity|].
  split; intros [H1 H2]; split; lra.
Qed.

Lemma enable_hover_gradient_opacity_witness :
  exists world' widget',
    enable_hover_gradient 0 (ColoursStr "#ff8800") (1 # 2)
      (one_widget (plain_widget 100 40 "")) = Ok world'
    /\ widgets world' !! 0%nat = Some widget'
    /\ stored_opacity (paintEvent widget') = Some (255 * (1 # 2))%Q
    /\ ((0 <= 255 * (1 # 2) /\ 255 * (1 # 2) <= 255)%Q
        <-> (0 <= 1 # 2 /\ 1 # 2 <= 1)%Q).
Proof.
  apply (enable_hover_gradient_opacity 0 (ColoursStr "#ff8800") (1 # 2)
           (one_widget (plain_widget 100 40 "")) (plain_widget 100 40 "")).
  - reflexivity.
  - reflexivity.
Defined.

(** C2, as the specification words it, fails: the widget is hovering and
    its pointer (-5, 3) is not the sentinel, yet nothing is drawn, where
    the specification has the clip path filled. *)
Lemma overlay_not_drawn_left_of_widget :
  let path := RectPath (adjusted (rect entered_left) 0 0 (-1) (-1)) in
  _hg_hover entered_left = Some true
  /\ _hg_pressed entered_left = Some false
  /\ _hg_pos entered_left = Some (mkQPoint (-5) 3)
  /\ _hg_cols entered_left = Some [QColor_of "#ffffff"]
  /\ mkQPoint (-5) 3 <> sentinel
  /\ _draw_hover_gradient entered_left path 255 = Ok []
  /\ _draw_hover_gradient entered_left path 255
     <> Ok (specified_overlay 100 40 true false (mkQPoint (-5) 3)
              (QColor_of "#ffffff") [] 255 path).
Proof.
  repeat split; try reflexivity; discriminate.
Qed.

(** C2, amended: for every hover state with at least one accent stop, the
    overlay draws nothing when [hovering] is false or the x coordinate of
    the pointer is negative (as it is for the sentinel (-1, -1));
    otherwise it fills the clip path with one radial gradient centred at
    the pointer, of radius max(width, height) * 0.6 when pressed and
    * 0.9 when not, whose centre colour is accent stop 0 with alpha
    [opacity] when pressed and [opacity * 0.6] when not, and whose edge
    colour is accent stop 1 if present and transparent otherwise. *)
Theorem draw_hover_gradient_overlay
    (widget : Widget) (path : QPainterPath) (opacity : Q)
    (hovering pressed : bool) (pointer : QPoint) (accent : QColor)
    (more : list QColor) :
  _hg_hover widget = Some hovering ->
  _hg_pressed widget = Some pressed ->
  _hg_pos widget = Some pointer ->
  _hg_cols widget = Some (accent :: more) ->
  _draw_hover_gradient widget path opacity
  = Ok (if negb hovering || (px pointer <? 0) then []
        else [FillPath path
                (hover_gradient (w_width widget) (w_height widget) pressed
                   pointer accent more opacity)]).
Proof.
  intros Hh Hp Hpos Hc. unfold _draw_hover_gradient.
  rewrite Hh, Hp, Hpos, Hc. simpl.
  destruct hovering; simpl; [|reflexivity].
  destruct (px pointer <? 0); [reflexivity|].
  unfold hover_gradient. destruct more; reflexivity.
Qed.

Lemma draw_hover_gradient_overlay_witness :
  let widget :=
    handle_event (decorated 0 (ColoursList ["#ff0000"; "#0000ff"]) 1
                    (plain_widget 100 40 ""))
      (Enter (mkQPoint 7 3)) in
  let path := RectPath (adjusted (rect widget) 0 0 (-1) (-1)) in
  _draw_hover_gradient widget path 255
  = Ok [FillPath path
          (mkGradient (mkQPoint 7 3) (inject_Z 100 * (9 # 10))%Q
             [(0%Q, OfColor (setAlpha (QColor_of "#ff0000") (255 * (6 # 10))%Q));
              (1%Q, OfColor (QColor_of "#0000ff"))])].
Proof.
  exact (draw_hover_gradient_overlay
           (handle_event (decorated 0 (ColoursList ["#ff0000"; "#0000ff"]) 1
                            (plain_widget 100 40 ""))
              (Enter (mkQPoint 7 3)))
           (RectPath (mkQRect 0 0 99 39)) 255 true false (mkQPoint 7 3)
           (QColor_of "#ff0000") [QColor_of "#0000ff"]
           eq_refl eq_refl eq_refl eq_refl).
Defined.

(** ** The listener *)

Lemma get_filter_Some fid f world :
  filters world !! fid = Some f -> get_filter fid world = Ok f.
Proof. unfold get_filter. by intros ->. Qed.

(** With a live target, [eventFilter] rewrites the target's entry of the
    store by [handle_event] and returns [False]; [watched] plays no part. *)
Lemma eventFilter_live self watched event world f tid target :
  filters world !! self = Some f ->
  _target f = Some tid ->
  widgets world !! tid = Some target ->
  eventFilter self watched event world
  = Ok (set_widget tid (handle_event target event) world, false).
Proof.
  intros Hf Ht Hw. unfold eventFilter.
  rewrite (get_filter_Some _ _ _ Hf). cbn [mbind result_bind]. rewrite Ht.
  by rewrite (get_widget_Some _ _ _ Hw).
Qed.

(** The object an event arrived on does not matter, event after event. *)
Lemma deliver_any_watched self (events : list (nat * QEvent)) (through : nat) world :
  deliver self events world
  = deliver self (map (fun we => (through, we.2)) events) world.
Proof.
  revert world. induction events as [|[watched event] more IH]; intros world.
  - reflexivity.
  - simpl. unfold eventFilter.
    destruct (get_filter self world) as [f|e]; [|reflexivity].
    cbn [mbind result_bind].
    destruct (_target f) as [tid|]; [|apply IH].
    destruct (get_widget tid world) as [target|e]; [|reflexivity].
    cbn [mbind result_bind]. apply IH.
Qed.

(** The table of [handle_event], on the target alone. *)
Lemma handle_event_table target :
  (forall globalPos,
     let pos := mapFromGlobal target globalPos in
     let target' := handle_event target (MouseMove globalPos) in
     contains (rect target) pos = true ->
     _hg_hover target' = Some true
     /\ _hg_pressed target' = _hg_pressed target
     /\ (pos = getattr (_hg_pos target) (mkQPoint 0 0) ->
         _hg_pos target' = _hg_pos target
         /\ w_updates target' = w_updates target)
     /\ (pos <> getattr (_hg_pos target) (mkQPoint 0 0) ->
         _hg_pos target' = Some pos
         /\ w_updates target' = S (w_updates target)))
  /\ (forall globalPos,
        let pos := mapFromGlobal target globalPos in
        let target' := handle_event target (MouseMove globalPos) in
        contains (rect target) pos = false ->
        getattr (_hg_hover target') false = false
        /\ _hg_pos target' = _hg_pos target
        /\ _hg_pressed target' = _hg_pressed target
        /\ w_updates target'
           = if getattr (_hg_hover target) false
             then S (w_updates target) else w_updates target).
Proof.
  split.
  - intros globalPos pos target' Hin. subst target'. simpl.
    fold pos. rewrite Hin.
    split; [by case_bool_decide|].
    split; [by case_bool_decide|].
    split.
    + intros Heq. rewrite bool_decide_eq_false_2 by (by intros ?). done.
    + intros Hne. rewrite bool_decide_eq_true_2 by done. done.
  - intros globalPos pos target' Hout. subst target'. simpl.
    fold pos. rewrite Hout.
    destruct (getattr (_hg_hover target) false) eqn:E; simpl; [done|].
    by rewrite E.
Qed.

(** With a live target, what an event leaves under the target's identity
    is [handle_event] of what was there. *)
Lemma event_leaves_live self watched event world f tid target (P : Widget -> Prop) :
  filters world !! self = Some f ->
  _target f = Some tid ->
  widgets world !! tid = Some target ->
  P (handle_event target event) ->
  event_leaves self watched event world tid P.
Proof.
  intros Hf Ht Hw HP.
  exists (set_widget tid (handle_event target event) world),
         (handle_event target event).
  split; [by eapply eventFilter_live|].
  split; [simpl; apply lookup_insert_eq|].
  split; [intros wid Hne; simpl; by rewrite lookup_insert_ne|].
  split; [done|exact HP].
Qed.

(** C3: the listener, one event at a time and so along every sequence of
    events.  Whatever object the event arrived on, the filter returns
    [False] and the widget changed in the store is the filter's target,
    the root; every other widget and the filters stay as they were.  A
    pointer-move inside the root's bounds leaves the root hovering; it
    stores the position and requests a repaint only when the position
    differs from the stored one.  A pointer-move outside the bounds
    leaves [hovering] false and requests a repaint only if the widget was
    hovering.  A pointer-enter sets [hovering], stores the event position
    and requests a repaint.  Press and release set and clear [pressed],
    each requesting a repaint. *)
Theorem eventFilter_state_machine self world f tid target :
  filters world !! self = Some f ->
  _target f = Some tid ->
  widgets world !! tid = Some target ->
  (forall watched event,
     eventFilter self watched event world
     = Ok (set_widget tid (handle_event target event) world, false))
  /\ (forall events through,
        deliver self events world
        = deliver self (map (fun we => (through, we.2)) events) world)
  /\ (forall watched globalPos,
        let pos := mapFromGlobal target globalPos in
        contains (rect target) pos = true ->
        event_leaves self watched (MouseMove globalPos) world tid
          (fun target' =>
             _hg_hover target' = Some true
             /\ _hg_pressed target' = _hg_pressed target
             /\ (pos = getattr (_hg_pos target) (mkQPoint 0 0) ->
                 _hg_pos target' = _hg_pos target
                 /\ w_updates target' = w_updates target)
             /\ (pos <> getattr (_hg_pos target) (mkQPoint 0 0) ->
                 _hg_pos target' = Some pos
                 /\ w_updates target' = S (w_updates target))))
  /\ (forall watched globalPos,
        let pos := mapFromGlobal target globalPos in
        contains (rect target) pos = false ->
        event_leaves self watched (MouseMove globalPos) world tid
          (fun target' =>
             getattr (_hg_hover target') false = false
             /\ _hg_pos target' = _hg_pos target
             /\ _hg_pressed target' = _hg_pressed target
             /\ w_updates target'
                = if getattr (_hg_hover target) false
                  then S (w_updates target) else w_updates target))
  /\ (forall watched pos,
        event_leaves self watched (Enter pos) world tid
          (fun target' =>
             _hg_hover target' = Some true
             /\ _hg_pos target' = Some pos
             /\ _hg_pressed target' = _hg_pressed target
             /\ w_updates target' = S (w_updates target)))
  /\ (forall watched,
        event_leaves self watched MouseButtonPress world tid
          (fun target' =>
             _hg_pressed target' = Some true
             /\ _hg_hover target' = _hg_hover target
             /\ _hg_pos target' = _hg_pos target
             /\ w_updates target' = S (w_updates target)))
  /\ (forall watched,
        event_leaves self watched MouseButtonRelease world tid
          (fun target' =>
             _hg_pressed target' = Some false
             /\ _hg_hover target' = _hg_hover target
             /\ _hg_pos target' = _hg_pos target
             /\ w_updates target' = S (w_updates target))).
Proof.
  intros Hf Ht Hw.
  destruct (handle_event_table target) as [Hinside Houtside].
  split; [intros; by eapply eventFilter_live|].
  split; [intros; apply deliver_any_watched|].
  split; [|split; [|split; [|split]]].
  - intros watched globalPos pos Hin.
    eapply event_leaves_live; [done..|]. by apply Hinside.
  - intros watched globalPos pos Hout.
    eapply event_leaves_live; [done..|]. by apply Houtside.
  - intros watched pos. by eapply event_leaves_live.
  - intros watched. by eapply event_leaves_live.
  - intros watched. by eapply event_leaves_live.
Qed.

Lemma eventFilter_state_machine_witness :
  exists world' target',
    eventFilter 0 5 (Enter (mkQPoint 3 4)) decorated_world = Ok (world', false)
    /\ widgets world' !! 0%nat = Some target'
    /\ (forall wid, wid <> 0%nat ->
        widgets world' !! wid = widgets decorated_world !! wid)
    /\ filters world' = filters decorated_world
    /\ (_hg_hover target' = Some true
        /\ _hg_pos target' = Some (mkQPoint 3 4)
        /\ _hg_pressed target' = Some false
        /\ w_updates target' = 1%nat).
Proof.
  exact (proj1 (proj2 (proj2 (proj2 (proj2
    (eventFilter_state_machine 0 decorated_world
       (mkFilter (Some 0%nat) false) 0
       (decorated 0 ColoursNone 1 (plain_widget 100 40 ""))
       eq_refl eq_refl eq_refl)))))
    5%nat (mkQPoint 3 4)).
Defined.

Example enable_reaches_decorated_world :
  enable_hover_gradient 0 ColoursNone 1 (one_widget (plain_widget 100 40 ""))
  = Ok decorated_world.
Proof.
  rewrite (enable_hover_gradient_fresh 0 ColoursNone 1 _ (plain_widget 100 40 ""))
    by reflexivity.
  unfold decorated_world, one_widget; simpl.
  by rewrite !insert_singleton_eq, insert_empty.
Qed.

(** ** Destruction *)

Lemma on_dead_filters self world world' :
  _on_dead self world = Ok world' ->
  widgets world' = widgets world
  /\ filters world' = <[self := mkFilter None true]> (filters world)
  /\ next_filter world' = next_filter world
  /\ app_styleSheet world' = app_styleSheet world.
Proof.
  unfold _on_dead. destruct (get_filter self world); [|done].
  cbn [mbind result_bind]. by intros [= <-].
Qed.

Lemma on_dead_keeps_cleared self fid world world' :
  _on_dead self world = Ok world' ->
  filters world !! fid = Some (mkFilter None true) ->
  filters world' !! fid = Some (mkFilter None true).
Proof.
  intros H Hfid. apply on_dead_filters in H as (_ & -> & _).
  destruct (decide (self = fid)) as [->|Hne].
  - apply lookup_insert_eq.
  - by rewrite lookup_insert_ne.
Qed.

Lemma run_slots_keeps_cleared slots fid world world' :
  run_slots slots world = Ok world' ->
  filters world !! fid = Some (mkFilter None true) ->
  filters world' !! fid = Some (mkFilter None true).
Proof.
  revert world. induction slots as [|g slots IH]; intros world; simpl.
  - by intros [= <-].
  - destruct (_on_dead g world) as [world1|] eqn:E; [|done].
    cbn [mbind result_bind]. intros H Hfid.
    apply (IH _ H). by eapply on_dead_keeps_cleared.
Qed.

Lemma run_slots_clears slots fid world world' :
  run_slots slots world = Ok world' ->
  fid ∈ slots ->
  filters world' !! fid = Some (mkFilter None true).
Proof.
  revert world. induction slots as [|g slots IH]; intros world; simpl.
  - intros _ Hin. by apply elem_of_nil in Hin.
  - destruct (_on_dead g world) as [world1|] eqn:E; [|done].
    cbn [mbind result_bind]. intros H Hin.
    apply elem_of_cons in Hin as [->|Hin].
    + apply (run_slots_keeps_cleared _ _ _ _ H).
      apply on_dead_filters in E as (_ & -> & _). apply lookup_insert_eq.
    + by apply (IH _ H).
Qed.

Lemma run_slots_widgets slots world world' :
  run_slots slots world = Ok world' -> widgets world' = widgets world.
Proof.
  revert world. induction slots as [|g slots IH]; intros world; simpl.
  - by intros [= <-].
  - destruct (_on_dead g world) as [world1|] eqn:E; [|done].
    cbn [mbind result_bind]. intros H. rewrite (IH _ H).
    by apply on_dead_filters in E as (-> & _).
Qed.

(** A filter whose back-reference is cleared ignores every event. *)
Lemma eventFilter_dead self watched event world f :
  filters world !! self = Some f ->
  _target f = None ->
  eventFilter self watched event world = Ok (world, false).
Proof.
  intros Hf Ht. unfold eventFilter.
  rewrite (get_filter_Some _ _ _ Hf). cbn [mbind result_bind]. by rewrite Ht.
Qed.

Lemma deliver_dead self events world f :
  filters world !! self = Some f ->
  _target f = None ->
  deliver self events world = Ok world.
Proof.
  intros Hf Ht. induction events as [|[watched event] more IH]; [done|].
  simpl. rewrite (eventFilter_dead _ _ _ _ _ Hf Ht). exact IH.
Qed.

(** C8: once the decorated widget's destruction notification has fired,
    the handler has cleared the back-reference of every filter connected
    to it, and every event delivered to such a filter, alone or in a
    sequence, returns [False] with the world as it was: no state is
    changed, no repaint is requested, the destroyed widget (no longer in
    the store) is not looked up, and nothing is raised. *)
Theorem eventFilter_after_destroyed wid world world' widget self :
  widgets world !! wid = Some widget ->
  self ∈ w_destroyed_slots widget ->
  destroy wid world = Ok world' ->
  widgets world' !! wid = None
  /\ (exists f, filters world' !! self = Some f /\ _target f = None)
  /\ (forall watched event,
        eventFilter self watched event world' = Ok (world', false))
  /\ (forall events, deliver self events world' = Ok world').
Proof.
  intros Hw Hin. unfold destroy.
  rewrite (get_widget_Some _ _ _ Hw). cbn [mbind result_bind].
  destruct (run_slots (w_destroyed_slots widget) world) as [world1|] eqn:E;
    [|done].
  cbn [mbind result_bind]. intros [= <-].
  pose proof (run_slots_clears _ _ _ _ E Hin) as Hc.
  split; [simpl; apply lookup_delete_eq|].
  split; [by eexists|].
  split.
  - intros watched event. by eapply eventFilter_dead.
  - intros events. by eapply deliver_dead.
Qed.

Lemma eventFilter_after_destroyed_witness :
  exists world',
    destroy 0 decorated_world = Ok world'
    /\ eventFilter 0 0 (MouseMove (mkQPoint 3 4)) world' = Ok (world', false).
Proof.
  eexists. split; [reflexivity|].
  refine (proj1 (proj2 (proj2
    (eventFilter_after_destroyed 0 decorated_world _
       (decorated 0 ColoursNone 1 (plain_widget 100 40 "")) 0 _ _ _)))
    0%nat (MouseMove (mkQPoint 3 4))).
  - reflexivity.
  - simpl. apply elem_of_cons. by left.
  - reflexivity.
Defined.

(** Without the notification the guard does not help: the filter reaches
    for a widget that is gone. *)
Example eventFilter_dangling :
  eventFilter 0 0 (MouseMove (mkQPoint 3 4)) dangling_world = Raise dead_object.
Proof. reflexivity. Qed.

(** ** Idempotence of the attachment *)

(** After a successful call the marker is set. *)
Lemma enable_hover_gradient_marks wid colours opacity world world1 :
  enable_hover_gradient wid colours opacity world = Ok world1 ->
  exists widget1,
    widgets world1 !! wid = Some widget1
    /\ getattr (_hg_enabled widget1) false = true.
Proof.
  intros H.
  destruct (widgets world !! wid) as [widget|] eqn:Hw.
  - destruct (getattr (_hg_enabled widget) false) eqn:Hen.
    + rewrite (enable_hover_gradient_again _ _ _ _ _ Hw Hen) in H.
      injection H as <-. by exists widget.
    + rewrite (enable_hover_gradient_fresh _ _ _ _ _ Hw Hen) in H.
      injection H as <-. eexists. split; [simpl; apply lookup_insert_eq|done].
  - unfold enable_hover_gradient, get_widget in H. by rewrite Hw in H.
Qed.

(** C10: calling [enable_hover_gradient] twice on a widget is the same as
    calling it once.  The second call, whatever its colours and opacity,
    finds the marker and returns with the world untouched (accent stops,
    opacity ceiling, paint wrapper and filter stay as the first call left
    them) and raises nothing. *)
Theorem enable_hover_gradient_idempotent
    wid colours (opacity : Q) colours' (opacity' : Q) world :
  (enable_hover_gradient wid colours opacity world
     ≫= enable_hover_gradient wid colours' opacity')
  = enable_hover_gradient wid colours opacity world
  /\ (forall world1,
        enable_hover_gradient wid colours opacity world = Ok world1 ->
        enable_hover_gradient wid colours' opacity' world1 = Ok world1).
Proof.
  assert (forall world1,
            enable_hover_gradient wid colours opacity world = Ok world1 ->
            enable_hover_gradient wid colours' opacity' world1 = Ok world1) as Hsecond.
  { intros world1 H.
    apply enable_hover_gradient_marks in H as (widget1 & Hw1 & Hen1).
    by eapply enable_hover_gradient_again. }
  split; [|exact Hsecond].
  destruct (enable_hover_gradient wid colours opacity world) as [world1|e] eqn:E.
  - cbn [mbind result_bind]. by apply Hsecond.
  - reflexivity.
Qed.

Lemma enable_hover_gradient_idempotent_witness :
  enable_hover_gradient 0 (ColoursStr "#00ff00") (1 # 4) decorated_world
  = Ok decorated_world.
Proof.
  exact (proj2 (enable_hover_gradient_idempotent 0 ColoursNone 1
                  (ColoursStr "#00ff00") (1 # 4)
                  (one_widget (plain_widget 100 40 "")))
           decorated_world eq_refl).
Defined.

(** ** The border-radius resolver *)

Example findall_two :
  Re.findall "QPushButton { border-radius: 4px; } QFrame{border-radius :12px}"
  = ["4"; "12"].
Proof. reflexivity. Qed.

Example findall_needs_digits :
  Re.findall "border-radius: none; border-top-left-radius: 3px; border-radius :  007em"
  = ["007"].
Proof. reflexivity. Qed.

Lemma findall_step s :
  Re.findall s
  = match Re.match_here s with
    | Some (ds, rest) => ds :: Re.findall rest
    | None =>
        match s with
        | EmptyString => []
        | String _ r => Re.findall r
        end
    end.
Proof.
  funelim (Re.findall s).
  - rewrite E. by destruct m.
  - reflexivity.
  - by rewrite E.
Qed.

Lemma append_cons c (s t : string) : String c s ++ t = String c (s ++ t).
Proof. reflexivity. Qed.

Lemma all_chars_app p s t :
  all_chars p (s ++ t) = all_chars p s && all_chars p t.
Proof.
  induction s as [|c s IH]; simpl; [done|]. rewrite IH. by rewrite andb_assoc.
Qed.

Lemma all_chars_impl (p q : ascii -> bool) s :
  (forall c, p c = true -> q c = true) ->
  all_chars p s = true -> all_chars q s = true.
Proof.
  intros Hpq. induction s as [|c s IH]; simpl; [done|].
  intros [Hc Hs]%andb_prop. by rewrite (Hpq _ Hc), IH.
Qed.

Lemma space_not_b c : Re.is_space c = true -> not_b c = true.
Proof. destruct c as [[] [] [] [] [] [] [] []]; vm_compute; congruence. Qed.

Lemma digit_not_b c : Re.is_digit c = true -> not_b c = true.
Proof. destruct c as [[] [] [] [] [] [] [] []]; vm_compute; congruence. Qed.

Lemma strip_prefix_app p s r : Re.strip_prefix p s = Some r -> s = p ++ r.
Proof.
  revert s. induction p as [|a p IH]; intros s H; simpl in *.
  - by injection H as ->.
  - destruct s as [|b s]; [done|].
    destruct (Ascii.eqb a b) eqn:E; [|done].
    apply Ascii.eqb_eq in E as ->. by rewrite (IH _ H).
Qed.

Lemma skip_spaces_split s :
  exists ws, s = ws ++ Re.skip_spaces s /\ all_chars Re.is_space ws = true.
Proof.
  induction s as [|c s (ws & Hs & Hws)]; simpl.
  - by exists "".
  - destruct (Re.is_space c) eqn:E.
    + exists (String c ws). simpl. rewrite E, Hws, append_cons, <- Hs. done.
    + by exists "".
Qed.

Lemma take_digits_split s ds rest :
  Re.take_digits s = (ds, rest) ->
  s = ds ++ rest /\ all_chars Re.is_digit ds = true.
Proof.
  revert ds rest. induction s as [|c s IH]; intros ds rest H; simpl in *.
  - by injection H as <- <-.
  - destruct (Re.is_digit c) eqn:E.
    + destruct (Re.take_digits s) as [ds' rest'].
      injection H as <- <-. destruct (IH _ _ eq_refl) as [-> Hd].
      simpl. by rewrite E, Hd.
    + by injection H as <- <-.
Qed.

(** What a match looks like: the keyword, blanks, a colon, blanks, and a
    non-empty run of digits, the group. *)
Lemma match_here_split s ds rest :
  Re.match_here s = Some (ds, rest) ->
  exists ws1 ws2,
    s = "border-radius" ++ ws1 ++ ":" ++ ws2 ++ ds ++ rest
    /\ all_chars Re.is_space ws1 = true
    /\ all_chars Re.is_space ws2 = true
    /\ all_chars Re.is_digit ds = true
    /\ ds <> "".
Proof.
  unfold Re.match_here. intros H.
  destruct (Re.strip_prefix _ s) as [r1|] eqn:E1; [|done].
  apply strip_prefix_app in E1.
  destruct (skip_spaces_split r1) as (ws1 & Hr1 & Hws1).
  destruct (Re.skip_spaces r1) as [|c r2]; [done|].
  destruct (Ascii.eqb c ":") eqn:Ec.
  - apply Ascii.eqb_eq in Ec as ->.
    destruct (skip_spaces_split r2) as (ws2 & Hr2 & Hws2).
    destruct (Re.take_digits (Re.skip_spaces r2)) as [d r] eqn:E2.
    apply take_digits_split in E2 as [E2 Hd].
    destruct d as [|d0 d]; [done|]. injection H as <- <-.
    exists ws1, ws2. repeat split; try done.
    rewrite E1, Hr1, Hr2, E2. reflexivity.
  - exfalso. destruct c as [[] [] [] [] [] [] [] []]; try done.
    all: destruct (Re.take_digits (Re.skip_spaces r2)) as [[|] ?]; done.
Qed.

Lemma match_here_not_b c s : not_b c = true -> Re.match_here (String c s) = None.
Proof.
  intros H%negb_true_iff. unfold Re.match_here.
  change (Re.strip_prefix "border-radius" (String c s))
    with (if Ascii.eqb "b" c then Re.strip_prefix "order-radius" s else None).
  by rewrite Ascii.eqb_sym, H.
Qed.

Lemma declarations_cons c r :
  declarations (String c r)
  = match Re.match_here (String c r) with
    | Some (ds, _) => ds :: declarations r
    | None => declarations r
    end.
Proof. reflexivity. Qed.

(** No declaration starts on a character that is not [b]. *)
Lemma declarations_skip m rest :
  all_chars not_b m = true -> declarations (m ++ rest) = declarations rest.
Proof.
  induction m as [|c m IH]; [done|].
  intros [Hc Hm]%andb_prop. rewrite append_cons, declarations_cons.
  by rewrite (match_here_not_b _ _ Hc), IH.
Qed.

Lemma append_assoc_string (s t u : string) : (s ++ t) ++ u = s ++ t ++ u.
Proof. induction s as [|c s IH]; [done|]. by rewrite !append_cons, IH. Qed.

(** A match has its only [b] in front. *)
Lemma match_here_one_b s ds rest :
  Re.match_here s = Some (ds, rest) ->
  exists m, s = String "b" (m ++ rest) /\ all_chars not_b m = true.
Proof.
  intros H.
  destruct (match_here_split _ _ _ H) as (ws1 & ws2 & -> & H1 & H2 & H3 & _).
  exists ("order-radius" ++ ws1 ++ ":" ++ ws2 ++ ds). split.
  - rewrite !append_assoc_string. reflexivity.
  - rewrite !all_chars_app.
    rewrite (all_chars_impl _ _ _ space_not_b H1).
    rewrite (all_chars_impl _ _ _ space_not_b H2).
    rewrite (all_chars_impl _ _ _ digit_not_b H3). reflexivity.
Qed.

(** [re.findall] misses no declaration: matches cannot overlap. *)
Lemma findall_declarations s : Re.findall s = declarations s.
Proof.
  funelim (Re.findall s).
  - destruct m as [ds rest]. simpl in *. rewrite H.
    destruct (match_here_one_b _ _ _ E) as (m & -> & Hm).
    rewrite declarations_cons, E. by rewrite (declarations_skip _ _ Hm).
  - reflexivity.
  - rewrite declarations_cons, E. exact H.
Qed.

Lemma first_radius_declarations sources :
  first_radius sources
  = match sources with
    | [] => 0
    | source :: more =>
        match last (declarations source) with
        | Some d => int d
        | None => first_radius more
        end
    end.
Proof. destruct sources; simpl; [done|]. by rewrite findall_declarations. Qed.

(** The resolver in terms of the matches of the pattern: the last match
    of the widget's own text decides, else the last match of the
    application's text, else 0. *)
Lemma extract_border_radius_of_matches (widget : Widget) (app : option string) :
  let own := declarations (w_styleSheet widget) in
  let global :=
    match app with
    | Some sheet => declarations sheet
    | None => []
    end in
  (forall d, last own = Some d -> _extract_border_radius widget app = int d)
  /\ (own = [] ->
      forall d, last global = Some d -> _extract_border_radius widget app = int d)
  /\ (own = [] -> global = [] -> _extract_border_radius widget app = 0).
Proof.
  intros own global. unfold _extract_border_radius.
  rewrite first_radius_declarations. cbn [List.app]. fold own.
  split; [|split].
  - by intros d ->.
  - intros -> d Hd. cbn [last]. subst global.
    destruct app as [sheet|]; [|done].
    rewrite first_radius_declarations. by rewrite Hd.
  - intros -> Hg. cbn [last]. subst global.
    destruct app as [sheet|]; [|done].
    rewrite first_radius_declarations. by rewrite Hg.
Qed.

(** Style-text precedence: of two declarations the later one wins. *)
Example extract_border_radius_later_wins :
  _extract_border_radius
    (plain_widget 100 40 "QWidget { border-radius: 4px; } QWidget:hover { border-radius : 12px; }")
    (Some "* { border-radius: 7px; }")
  = 12.
Proof. reflexivity. Qed.

Example extract_border_radius_from_application :
  _extract_border_radius (plain_widget 100 40 "QWidget { border: 1px solid; }")
    (Some "* { border-radius: 7px; } QFrame { border-top-left-radius: 9px; }")
  = 7.
Proof. reflexivity. Qed.

Example extract_border_radius_none :
  _extract_border_radius (plain_widget 100 40 "color: red") None = 0.
Proof. reflexivity. Qed.

(** The radius resolved is never negative. *)
Lemma int_acc_nonneg ds acc :
  all_chars Re.is_digit ds = true -> 0 <= acc -> 0 <= int_acc acc ds.
Proof.
  revert acc. induction ds as [|c ds IH]; intros acc; simpl; [done|].
  intros [Hc Hds]%andb_prop Hacc. apply IH; [done|].
  assert (0 <= digit_value c); [|lia].
  unfold digit_value, Re.is_digit in *.
  apply andb_prop in Hc as [Hc _]. apply N.leb_le in Hc. lia.
Qed.

Lemma findall_digits s d :
  d ∈ Re.findall s -> all_chars Re.is_digit d = true.
Proof.
  funelim (Re.findall s).
  - destruct m as [ds rest]. simpl in *.
    intros [->|Hin]%elem_of_cons; [|by apply H].
    by destruct (match_here_split _ _ _ E) as (ws1 & ws2 & _ & _ & _ & Hd & _).
  - by intros ?%elem_of_nil.
  - apply H.
Qed.

Lemma last_elem_of {A} (l : list A) (x : A) : last l = Some x -> x ∈ l.
Proof.
  induction l as [|a [|b l] IH]; simpl; [done| |].
  - intros [= ->]. apply elem_of_cons. by left.
  - intros H. apply elem_of_cons. right. by apply IH.
Qed.

Lemma first_radius_nonneg sources : 0 <= first_radius sources.
Proof.
  induction sources as [|source more IH]; simpl; [lia|].
  destruct (last (Re.findall source)) as [d|] eqn:E; [|exact IH].
  apply int_acc_nonneg; [|lia].
  eapply findall_digits, last_elem_of, E.
Qed.

Lemma extract_border_radius_nonneg widget app :
  0 <= _extract_border_radius widget app.
Proof. apply first_radius_nonneg. Qed.

(** ** The memoized radius *)

(** With the radius memoized, a paint leaves the widget as it is and
    clips by that radius, whatever the style texts say. *)
Lemma call_paint_memoized p app w radius w' drawn :
  _hg_radius w = Some radius ->
  0 <= radius ->
  call_paint p app w = Ok (w', drawn) ->
  w' = w /\ Forall (drawn_with radius) drawn.
Proof.
  intros Hr Hpos. revert w' drawn.
  induction p as [|original IH opacity]; intros w' drawn; simpl.
  - intros [= <- <-]. split; [done|]. by repeat constructor.
  - unfold patched_paint.
    destruct (call_paint original app w) as [[w0 drawn0]|] eqn:E; [|done].
    destruct (IH _ _ eq_refl) as [-> Hd0].
    cbn [mbind result_bind]. rewrite Hr.
    destruct (_draw_hover_gradient w _ opacity) as [overlay|] eqn:Eo; [|done].
    cbn [mbind result_bind]. intros [= <- <-]. split; [done|].
    apply Forall_app. split; [done|].
    unfold _draw_hover_gradient in Eo.
    destruct (negb (getattr (_hg_hover w) false)); [by injection Eo as <-|].
    destruct (attr "_hg_pos" (_hg_pos w)) as [pos|]; [|done].
    cbn [mbind result_bind] in Eo.
    destruct (px pos <? 0); [by injection Eo as <-|].
    destruct (getattr (_hg_cols w) _) as [|accent more]; [done|].
    injection Eo as <-. constructor; [|done].
    simpl. destruct (0 <? radius) eqn:E0; simpl; [done|].
    apply Z.ltb_ge in E0. lia.
Qed.

(** The first paint of a widget whose radius is not yet computed: either
    no wrapper is in the routine, or the radius extracted from the style
    texts of that moment is stored. *)
Lemma call_paint_first p app w w' drawn :
  _hg_radius w = None ->
  call_paint p app w = Ok (w', drawn) ->
  (w' = w \/ w' = set_hg_radius (_extract_border_radius w app) w)
  /\ Forall (drawn_with (_extract_border_radius w app)) drawn.
Proof.
  intros Hr. revert w' drawn.
  induction p as [|original IH opacity]; intros w' drawn; simpl.
  - intros [= <- <-]. split; [by left|]. by repeat constructor.
  - unfold patched_paint.
    destruct (call_paint original app w) as [[w0 drawn0]|] eqn:E; [|done].
    destruct (IH _ _ eq_refl) as [Hw0 Hd0].
    cbn [mbind result_bind].
    pose proof (extract_border_radius_nonneg w app) as Hpos.
    set (radius := _extract_border_radius w app) in *.
    assert (exists self1,
               (match _hg_radius w0 with
                | Some r => (r, w0)
                | None => (_extract_border_radius w0 app,
                           set_hg_radius (_extract_border_radius w0 app) w0)
                end) = (radius, self1)
               /\ self1 = set_hg_radius radius w) as (self1 & -> & ->).
    { destruct Hw0 as [->| ->].
      - rewrite Hr. by eexists.
      - simpl. by eexists. }
    destruct (_draw_hover_gradient _ _ opacity) as [overlay|] eqn:Eo; [|done].
    cbn [mbind result_bind]. intros [= <- <-]. split; [by right|].
    apply Forall_app. split; [done|].
    unfold _draw_hover_gradient in Eo. simpl in Eo.
    destruct (negb (getattr (_hg_hover w) false)); [by injection Eo as <-|].
    destruct (attr "_hg_pos" (_hg_pos w)) as [pos|]; [|done].
    cbn [mbind result_bind] in Eo.
    destruct (px pos <? 0); [by injection Eo as <-|].
    destruct (getattr (_hg_cols w) _) as [|accent more]; [done|].
    injection Eo as <-. constructor; [|done].
    simpl. destruct (0 <? radius) eqn:E0; simpl; [done|].
    apply Z.ltb_ge in E0. lia.
Qed.

Lemma handle_event_keeps_radius w event :
  _hg_radius (handle_event w event) = _hg_radius w.
Proof.
  destruct event; simpl; try done.
  destruct (contains _ _).
  - by case_bool_decide.
  - by destruct (getattr (_hg_hover w) false).
Qed.

(** Once memoized, the radius survives every run of host actions, and so
    does the radius painted. *)
Lemma host_run_memoized actions w app radius w' app' drawn :
  _hg_radius w = Some radius ->
  0 <= radius ->
  host_run actions w app = Ok (w', app', drawn) ->
  _hg_radius w' = Some radius /\ Forall (drawn_with radius) drawn.
Proof.
  intros Hr Hpos. revert w app w' app' drawn Hr.
  induction actions as [|[|event|text|sheet] more IH];
    intros w app w' app' drawn Hr; simpl.
  - intros [= <- <- <-]. by split.
  - destruct (call_paint (paintEvent w) app w) as [[w1 drawn1]|] eqn:E; [|done].
    destruct (call_paint_memoized _ _ _ _ _ _ Hr Hpos E) as [-> Hd1].
    cbn [mbind result_bind].
    destruct (host_run more w app) as [[[w2 app2] later]|] eqn:E2; [|done].
    cbn [mbind result_bind]. intros [= <- <- <-].
    destruct (IH _ _ _ _ _ Hr E2) as [Hr2 Hd2].
    split; [done|]. apply Forall_app. by split.
  - apply IH. by rewrite handle_event_keeps_radius.
  - by apply IH.
  - by apply IH.
Qed.

Lemma patched_paint_sets_radius original opacity app w w' drawn :
  call_paint (PatchedPaint original opacity) app w = Ok (w', drawn) ->
  is_Some (_hg_radius w').
Proof.
  simpl. unfold patched_paint.
  destruct (call_paint original app w) as [[w0 drawn0]|]; [|done].
  cbn [mbind result_bind].
  destruct (_hg_radius w0) as [r|] eqn:E.
  - destruct (_draw_hover_gradient w0 _ opacity); [|done].
    cbn [mbind result_bind]. intros [= <- <-]. by rewrite E.
  - destruct (_draw_hover_gradient _ _ opacity); [|done].
    cbn [mbind result_bind]. by intros [= <- <-].
Qed.

(** ** Icon lookup *)

Lemma contains_key_true d key : contains_key d key = true <-> is_Some (d !! key).
Proof. unfold contains_key. by rewrite bool_decide_eq_true. Qed.

Lemma contains_key_false d key : contains_key d key = false <-> d !! key = None.
Proof.
  unfold contains_key. rewrite bool_decide_eq_false.
  by rewrite eq_None_not_Some.
Qed.

(** [__init__] reads exactly the table ultimately consulted. *)
Lemma svg_init_consulted {Color} cat id filled :
  @_MaterialIconSVG_init Color cat id filled
  = match consulted cat id filled !! id with
    | Some source => Ok (mkSVG id None None source)
    | None => Raise (KeyError id)
    end.
Proof.
  unfold _MaterialIconSVG_init, consulted, getitem.
  destruct filled; simpl.
  - destruct (contains_key (_material_icons_filled cat) id); simpl.
    + by destruct (_material_icons_filled cat !! id).
    + by destruct (_material_icons cat !! id).
  - by destruct (_material_icons cat !! id).
Qed.

(** C4: asked for the filled variant, the lookup uses the filled table's
    entry when the name is there and otherwise the outline table's entry
    for the same name, without raising; asked for the other variant it
    uses the outline table; and it raises, a [KeyError] and so a
    [LookupError], exactly when the name is absent from the table
    ultimately consulted. *)
Theorem material_icon_svg_lookup (Color : Type) (cat : Catalog) (id : string) :
  (forall source,
     _material_icons_filled cat !! id = Some source ->
     @_MaterialIconSVG_init Color cat id true = Ok (mkSVG id None None source))
  /\ (forall source,
        _material_icons_filled cat !! id = None ->
        _material_icons cat !! id = Some source ->
        @_MaterialIconSVG_init Color cat id true = Ok (mkSVG id None None source))
  /\ (forall source,
        _material_icons cat !! id = Some source ->
        @_MaterialIconSVG_init Color cat id false = Ok (mkSVG id None None source))
  /\ (forall filled,
        consulted cat id filled
        = if filled
          then match _material_icons_filled cat !! id with
               | Some _ => _material_icons_filled cat
               | None => _material_icons cat
               end
          else _material_icons cat)
  /\ (forall filled,
        consulted cat id filled !! id = None <->
        exists e, @_MaterialIconSVG_init Color cat id filled = Raise e
                  /\ is_LookupError e = true)
  /\ (forall filled,
        consulted cat id filled !! id = None <->
        raises (@_MaterialIconSVG_init Color cat id filled)).
Proof.
  assert (forall filled,
            consulted cat id filled
            = if filled
              then match _material_icons_filled cat !! id with
                   | Some _ => _material_icons_filled cat
                   | None => _material_icons cat
                   end
              else _material_icons cat) as Hcons.
  { intros [|]; unfold consulted; simpl; [|done].
    destruct (_material_icons_filled cat !! id) eqn:E.
    - by rewrite (proj2 (contains_key_true _ _)) by (by rewrite E).
    - by rewrite (proj2 (contains_key_false _ _) E). }
  split; [|split; [|split; [|split; [|split]]]].
  - intros source H. by rewrite svg_init_consulted, Hcons, H, H.
  - intros source H1 H2. by rewrite svg_init_consulted, Hcons, H1, H2.
  - intros source H. by rewrite svg_init_consulted, Hcons, H.
  - exact Hcons.
  - intros filled. rewrite svg_init_consulted.
    destruct (consulted cat id filled !! id); split.
    + done.
    + by intros (e & ? & _).
    + intros _. by exists (KeyError id).
    + done.
  - intros filled. rewrite svg_init_consulted.
    by destruct (consulted cat id filled !! id).
Qed.

(** [renderIcon("settings", filled=True)] falls back to the outline entry;
    an unknown name raises. *)
Example settings_filled_falls_back :
  @_MaterialIconSVG_init RGBA two_icons "settings" true
  = Ok (mkSVG "settings" None None "<svg>settings</svg>").
Proof. reflexivity. Qed.

Example close_filled_uses_filled :
  @_MaterialIconSVG_init RGBA two_icons "close" true
  = Ok (mkSVG "close" None None "<svg>close filled</svg>").
Proof. reflexivity. Qed.

Example unknown_icon_raises :
  @_MaterialIconSVG_init RGBA two_icons "nonexistent_icon_xyz" false
  = Raise (KeyError "nonexistent_icon_xyz").
Proof. reflexivity. Qed.

(** ** Colour resolution *)

(** C5: the colour [paint] resolves.  With no colour given it is the
    palette's disabled text colour in the disabled mode and the palette's
    text colour in every other mode; a string is parsed as it stands,
    whatever the palette and the mode; a per-appearance mapping gives the
    palette's text colour; a tuple and a [QColor] give their own values;
    any other object gives [#000000], opaque black, and raises nothing. *)
Theorem paint_color_resolution
    (Color : Type) (from_rgba : list Z -> result Color)
    (from_hex : string -> result Color) (black : Color)
    (palette : QPalette) (svg : _MaterialIconSVG Color) (mode : Mode) :
  from_hex "#000000" = Ok black ->
  paint_color from_rgba from_hex palette (mkEngine svg ColorNone) Disabled
  = from_rgba (getRgb (disabled_text palette))
  /\ (mode <> Disabled ->
      paint_color from_rgba from_hex palette (mkEngine svg ColorNone) mode
      = from_rgba (getRgb (text palette)))
  /\ (forall hex,
        paint_color from_rgba from_hex palette (mkEngine svg (ColorStr hex)) mode
        = from_hex hex)
  /\ (forall by_appearance,
        paint_color from_rgba from_hex palette
          (mkEngine svg (ColorDict by_appearance)) mode
        = from_rgba (getRgb (text palette)))
  /\ (forall values,
        paint_color from_rgba from_hex palette (mkEngine svg (ColorTuple values)) mode
        = from_rgba values)
  /\ (forall c,
        paint_color from_rgba from_hex palette (mkEngine svg (ColorQColor c)) mode
        = from_rgba (getRgb c))
  /\ (forall repr,
        paint_color from_rgba from_hex palette (mkEngine svg (ColorOther repr)) mode
        = Ok black).
Proof.
  intros Hblack. unfold paint_color; simpl.
  repeat split; try done.
  intros Hmode. by destruct mode.
Qed.

Lemma paint_color_resolution_witness :
  paint_color Color_from_rgba Color_from_hex grey_palette
    (mkEngine (mkSVG "close" None None "<svg>close</svg>") (ColorOther "3.5"))
    Selected
  = Ok (mkRGBA 0 0 0 255).
Proof.
  exact (proj2 (proj2 (proj2 (proj2 (proj2 (proj2
    (paint_color_resolution RGBA Color_from_rgba Color_from_hex
       (mkRGBA 0 0 0 255) grey_palette
       (mkSVG "close" None None "<svg>close</svg>") Selected eq_refl))))))
    "3.5").
Defined.

(** [color=None, mode=disabled] gives the palette's disabled text colour;
    [color="#ff0000"] gives pure red whatever the palette and the mode. *)
Example disabled_icon_colour :
  paint_color Color_from_rgba Color_from_hex grey_palette
    (mkEngine (mkSVG "close" None None "<svg>close</svg>") ColorNone) Disabled
  = Ok (mkRGBA 120 120 120 255).
Proof. reflexivity. Qed.

Example red_icon_colour palette mode :
  paint_color Color_from_rgba Color_from_hex palette
    (mkEngine (mkSVG "close" None None "<svg>close</svg>") (ColorStr "#ff0000")) mode
  = Ok (mkRGBA 255 0 0 255).
Proof. reflexivity. Qed.

(** ** [material_icon] *)

Lemma material_icon_known {Color} cat icon_name size colour rotate_by mode filled
    icon_type source :
  consulted cat icon_name filled !! icon_name = Some source ->
  exists engine : _MaterialIconEngine Color,
    material_icon cat icon_name size colour rotate_by mode filled icon_type
    = match icon_type with
      | QIcon_type => Ok (AsQIcon engine)
      | QPixmap_type => Ok (AsQPixmap (pixmap engine (requested_size size) mode))
      | other_type _ => Raise (TypeError "icon_type must be QIcon or QPixmap")
      end.
Proof.
  intros H. unfold material_icon. rewrite svg_init_consulted, H.
  cbn [mbind result_bind]. eexists.
  destruct icon_type; [reflexivity| |reflexivity].
  by destruct size.
Qed.

(** C9: for a known icon name, the raster-image kind gives a raster of
    exactly the pixel size asked for, 50 by 50 when no size is given; and
    [TypeError] is raised exactly when the result kind is neither [QIcon]
    nor [QPixmap]. *)
Theorem material_icon_result
    (Color : Type) (cat : Catalog) (icon_name : string) (size : SizeArg)
    (colour : ColorSpec) (rotate_by : Z) (mode : option Mode) (filled : bool)
    (source : string) :
  consulted cat icon_name filled !! icon_name = Some source ->
  (exists pm : QPixmap Color,
     material_icon cat icon_name size colour rotate_by mode filled QPixmap_type
     = Ok (AsQPixmap pm)
     /\ (pm_width pm, pm_height pm) = requested_size size)
  /\ requested_size SizeNone = (50, 50)
  /\ (forall w h, requested_size (SizeTuple w h) = (w, h))
  /\ (forall icon_type,
        (exists e,
           @material_icon Color cat icon_name size colour rotate_by mode filled
             icon_type = Raise e
           /\ is_TypeError e = true)
        <-> (icon_type <> QIcon_type /\ icon_type <> QPixmap_type))
  /\ (forall icon_type,
        raises (@material_icon Color cat icon_name size colour rotate_by mode
                  filled icon_type)
        <-> (icon_type <> QIcon_type /\ icon_type <> QPixmap_type)).
Proof.
  intros H.
  split; [|split; [done|split; [done|split]]].
  - destruct (material_icon_known (Color:=Color) cat icon_name size colour
                rotate_by mode filled QPixmap_type source H) as [engine ->].
    eexists. split; [reflexivity|]. simpl. by destruct (requested_size size).
  - intros icon_type.
    destruct (material_icon_known (Color:=Color) cat icon_name size colour
                rotate_by mode filled icon_type source H) as [engine ->].
    destruct icon_type; split.
    + by intros (e & ? & _).
    + by intros [? _].
    + by intros (e & ? & _).
    + by intros [_ ?].
    + done.
    + intros _. by eexists.
  - intros icon_type.
    destruct (material_icon_known (Color:=Color) cat icon_name size colour
                rotate_by mode filled icon_type source H) as [engine ->].
    destruct icon_type; split; simpl; try done.
    + by intros [? _].
    + by intros [_ ?].
Qed.

Lemma material_icon_result_witness :
  exists pm : QPixmap RGBA,
    material_icon two_icons "close" (SizeTuple 32 32) ColorNone 0 None false
      QPixmap_type
    = Ok (AsQPixmap pm)
    /\ (pm_width pm, pm_height pm) = (32, 32).
Proof.
  exact (proj1 (material_icon_result RGBA two_icons "close" (SizeTuple 32 32)
                  ColorNone 0 None false "<svg>close</svg>" eq_refl)).
Defined.

Example close_default_size :
  exists pm : QPixmap RGBA,
    material_icon two_icons "close" SizeNone ColorNone 0 None false QPixmap_type
    = Ok (AsQPixmap pm)
    /\ (pm_width pm, pm_height pm) = (50, 50).
Proof. eexists. split; reflexivity. Qed.

Example unknown_result_kind :
  @material_icon RGBA two_icons "close" SizeNone ColorNone 0 None false
    (other_type "QImage")
  = Raise (TypeError "icon_type must be QIcon or QPixmap").
Proof. reflexivity. Qed.

(** ** Reaching the descendants *)

Lemma installEventFilter_again fid fs :
  installEventFilter fid (installEventFilter fid fs) = installEventFilter fid fs.
Proof.
  unfold installEventFilter. f_equal. simpl. rewrite Nat.eqb_refl. simpl.
  induction fs as [|g fs IH]; simpl; [done|].
  destruct (negb (g =? fid)%nat) eqn:E; simpl; [|done].
  by rewrite E, IH.
Qed.

(** Reaching a descendant a second time changes nothing: this is why the
    repeated visits of the source need not be modelled. *)
Fixpoint propagate_child_again (self : nat) (c : Child) {struct c} :
  _propagate_child self (_propagate_child self c) = _propagate_child self c.
Proof.
  destruct c as [tracking fs kids]. simpl. f_equal.
  - apply installEventFilter_again.
  - induction kids as [|kid kids IH]; simpl; [done|].
    f_equal; [apply propagate_child_again|exact IH].
Qed.

Lemma propagate_mouse_tracking_again self w :
  _propagate_mouse_tracking self (_propagate_mouse_tracking self w)
  = _propagate_mouse_tracking self w.
Proof.
  unfold _propagate_mouse_tracking. destruct w; simpl. f_equal.
  induction w_children0 as [|kid kids IH]; simpl; [done|].
  by rewrite propagate_child_again, IH.
Qed.

(** ** Painting never fails on a decorated widget *)

Lemma draw_hover_gradient_ok w path opacity :
  paintable w -> exists overlay, _draw_hover_gradient w path opacity = Ok overlay.
Proof.
  intros [[pos Hpos] Hcols]. unfold _draw_hover_gradient.
  destruct (negb (getattr (_hg_hover w) false)); [by eexists|].
  rewrite Hpos. cbn [attr mbind result_bind].
  destruct (px pos <? 0); [by eexists|].
  destruct (getattr (_hg_cols w) _) as [|accent more]; [done|]. by eexists.
Qed.

Lemma call_paint_ok p app w :
  paintable w ->
  exists w' drawn,
    call_paint p app w = Ok (w', drawn)
    /\ paintable w' /\ paintEvent w' = paintEvent w.
Proof.
  intros Hw. induction p as [|original (w0 & drawn0 & E & Hw0 & Hp0) opacity];
    simpl.
  - by eexists _, _.
  - unfold patched_paint. rewrite E. cbn [mbind result_bind].
    destruct (_hg_radius w0) as [r|].
    + destruct (draw_hover_gradient_ok w0
                  (if 0 <? r
                   then RoundedRectPath (adjusted (rect w0) 0 0 (-1) (-1)) r r
                   else RectPath (adjusted (rect w0) 0 0 (-1) (-1)))
                  opacity Hw0) as [overlay ->].
      cbn [mbind result_bind]. by eexists _, _.
    + set (r := _extract_border_radius w0 app).
      assert (paintable (set_hg_radius r w0)) as Hw1 by exact Hw0.
      destruct (draw_hover_gradient_ok (set_hg_radius r w0)
                  (if 0 <? r
                   then RoundedRectPath
                          (adjusted (rect (set_hg_radius r w0)) 0 0 (-1) (-1)) r r
                   else RectPath
                          (adjusted (rect (set_hg_radius r w0)) 0 0 (-1) (-1)))
                  opacity Hw1) as [overlay ->].
      cbn [mbind result_bind]. by eexists _, _.
Qed.

Lemma handle_event_paintable w event : paintable w -> paintable (handle_event w event).
Proof.
  intros [Hpos Hcols]. destruct event; simpl; try done.
  destruct (contains _ _).
  - by case_bool_decide.
  - by destruct (getattr (_hg_hover w) false).
Qed.

(** Every run of host actions on a paintable widget ends, with a result. *)
Lemma host_run_ok actions w app :
  paintable w -> exists w' app' drawn, host_run actions w app = Ok (w', app', drawn).
Proof.
  revert w app. induction actions as [|[|event|text|sheet] more IH];
    intros w app Hw; simpl.
  - by eexists _, _, _.
  - destruct (call_paint_ok (paintEvent w) app w Hw) as (w1 & drawn1 & -> & Hw1 & _).
    cbn [mbind result_bind].
    destruct (IH w1 app Hw1) as (w2 & app2 & later & ->).
    cbn [mbind result_bind]. by eexists _, _, _.
  - apply IH. by apply handle_event_paintable.
  - by apply IH.
  - by apply IH.
Qed.

(** What [enable_hover_gradient] leaves behind is paintable as soon as it
    was given a colour. *)
Lemma decorated_paintable fid colours opacity widget :
  colours <> ColoursList [] -> paintable (decorated fid colours opacity widget).
Proof.
  intros Hc. split; [by eexists|]. simpl.
  destruct colours as [| |[|c cs]]; done.
Qed.

(** With no colour at all the first hover paint raises [IndexError]. *)
Example no_colour_raises :
  call_paint
    (paintEvent (decorated 0 (ColoursList []) 1 (plain_widget 100 40 ""))) None
    (handle_event (decorated 0 (ColoursList []) 1 (plain_widget 100 40 ""))
       (Enter (mkQPoint 3 4)))
  = Raise IndexError.
Proof. reflexivity. Qed.

(** ** The memoization contract *)

(** C7: the corner radius is computed from the style texts at most once.
    The first paint of a decorated widget stores the radius extracted at
    that moment and clips by it; after that, whatever events arrive and
    however the widget's or the application's style text is changed,
    every paint clips by the stored radius, which stays as it is.  On a
    paintable widget the first paint and every later run do return. *)
Theorem radius_memoized_after_first_paint
    (widget : Widget) (app : option string) original opacity :
  paintEvent widget = PatchedPaint original opacity ->
  _hg_radius widget = None ->
  let radius := _extract_border_radius widget app in
  (forall w1 drawn1,
     call_paint (paintEvent widget) app widget = Ok (w1, drawn1) ->
     _hg_radius w1 = Some radius
     /\ Forall (drawn_with radius) drawn1
     /\ (forall actions w2 app2 drawn2,
           host_run actions w1 app = Ok (w2, app2, drawn2) ->
           _hg_radius w2 = Some radius /\ Forall (drawn_with radius) drawn2))
  /\ (paintable widget ->
      exists w1 drawn1,
        call_paint (paintEvent widget) app widget = Ok (w1, drawn1)
        /\ forall actions,
             exists w2 app2 drawn2, host_run actions w1 app = Ok (w2, app2, drawn2)).
Proof.
  intros Hp Hr radius. split.
  - intros w1 drawn1 Hpaint.
    destruct (call_paint_first _ _ _ _ _ Hr Hpaint) as [Hw1 Hd1].
    rewrite Hp in Hpaint. apply patched_paint_sets_radius in Hpaint as [r Hsome].
    assert (_hg_radius w1 = Some radius) as Hr1.
    { destruct Hw1 as [->| ->]; [congruence|done]. }
    split; [done|]. split; [done|].
    intros actions w2 app2 drawn2 Hrun.
    eapply host_run_memoized; [exact Hr1| |exact Hrun].
    apply extract_border_radius_nonneg.
  - intros Hok.
    destruct (call_paint_ok (paintEvent widget) app widget Hok)
      as (w1 & drawn1 & E & Hw1 & _).
    exists w1, drawn1. split; [exact E|].
    intros actions. by apply host_run_ok.
Qed.

Lemma radius_memoized_after_first_paint_witness :
  exists w1 drawn1 w2 app2 drawn2,
    call_paint (paintEvent rounded_widget) (Some "") rounded_widget
    = Ok (w1, drawn1)
    /\ host_run restyle_and_repaint w1 (Some "") = Ok (w2, app2, drawn2)
    /\ _hg_radius w2 = Some 4
    /\ Forall (drawn_with 4) drawn2.
Proof.
  eexists _, _, _, _, _.
  split; [reflexivity|]. split; [reflexivity|].
  refine (proj2 (proj2
    (proj1 (radius_memoized_after_first_paint rounded_widget (Some "") ClassPaint
              (255 * 1)%Q eq_refl eq_refl) _ _ eq_refl))
    restyle_and_repaint _ _ _ _).
  reflexivity.
Defined.

(** What that repaint draws: the clip path still has the radius of the
    first paint, 4, not 99 or 50. *)
Example repaint_after_restyle :
  exists w2 app2 gradient,
    host_run (Repaint :: restyle_and_repaint) rounded_widget (Some "")
    = Ok (w2, app2,
          [OwnDrawing; OwnDrawing;
           FillPath (RoundedRectPath (mkQRect 0 0 99 39) 4 4) gradient]).
Proof. eexists _, _, _. reflexivity. Qed.

(** * Further properties of the code *)

(** ** Events and the overlay together *)

Lemma handle_event_frame w event : same_but_hover w (handle_event w event).
Proof.
  destruct event; simpl; try (by repeat split).
  destruct (contains _ _).
  - case_bool_decide; by repeat split.
  - destruct (getattr (_hg_hover w) false); by repeat split.
Qed.

Lemma draw_overlay_none w path opacity :
  getattr (_hg_hover w) false = false ->
  _draw_hover_gradient w path opacity = Ok [].
Proof. intros H. unfold _draw_hover_gradient. by rewrite H. Qed.

Lemma draw_overlay_glow w path opacity pos accent more :
  getattr (_hg_hover w) false = true ->
  _hg_pos w = Some pos ->
  0 <= px pos ->
  getattr (_hg_cols w) [QColor_of "#ffffff"] = accent :: more ->
  _draw_hover_gradient w path opacity
  = Ok [FillPath path
          (hover_gradient (w_width w) (w_height w) (getattr (_hg_pressed w) false)
             pos accent more opacity)].
Proof.
  intros Hh Hpos Hx Hc. unfold _draw_hover_gradient.
  rewrite Hh, Hpos, Hc. cbn [negb attr mbind result_bind].
  rewrite (proj2 (Z.ltb_ge _ _) Hx).
  unfold hover_gradient. by destruct more.
Qed.

(** One wrapper over the class's own paint: its own drawing, then the
    overlay of the memoized widget on its clip path. *)
Lemma call_paint_decorated opacity app w :
  call_paint (PatchedPaint ClassPaint opacity) app w
  = (overlay ← _draw_hover_gradient (memoized w app)
                 (clip_path w (paint_radius w app)) opacity;
     Ok (memoized w app, OwnDrawing :: overlay)).
Proof.
  simpl. unfold patched_paint. cbn [mbind result_bind].
  unfold memoized, paint_radius, clip_path, adjusted, rect.
  destruct (_hg_radius w) as [r|]; simpl;
    replace (w_width w + -1 - 0) with (w_width w - 1) by lia;
    replace (w_height w + -1 - 0) with (w_height w - 1) by lia;
    reflexivity.
Qed.

Lemma draw_memoized w app path opacity :
  _draw_hover_gradient (memoized w app) path opacity
  = _draw_hover_gradient w path opacity.
Proof. unfold memoized. by destruct (_hg_radius w). Qed.

Lemma contains_rect_nonneg w pos :
  contains (rect w) pos = true ->
  0 <= px pos < w_width w /\ 0 <= py pos < w_height w.
Proof.
  unfold contains, rect. simpl.
  rewrite !andb_true_iff, !Z.leb_le. lia.
Qed.

(** X1: after a pointer-move to a place inside a decorated widget, the
    widget is hovering, the stored pointer is that place, and the next
    paint draws the widget's own drawing followed by one gradient centred
    there. *)
Theorem move_inside_glows
    (w : Widget) (globalPos : QPoint) (app : option string) (opacity : Q) :
  paintEvent w = PatchedPaint ClassPaint opacity ->
  paintable w ->
  contains (rect w) (mapFromGlobal w globalPos) = true ->
  let pos := mapFromGlobal w globalPos in
  let w1 := handle_event w (MouseMove globalPos) in
  _hg_hover w1 = Some true
  /\ _hg_pos w1 = Some pos
  /\ exists w2 gradient,
       call_paint (paintEvent w1) app w1
       = Ok (w2, [OwnDrawing; FillPath (clip_path w (paint_radius w app)) gradient])
       /\ g_centre gradient = pos.
Proof.
  intros Hp [[old Hold] Hcols] Hin pos w1.
  assert (_hg_hover w1 = Some true) as Hh.
  { subst w1. simpl. rewrite Hin. by case_bool_decide. }
  assert (_hg_pos w1 = Some pos) as Hpos.
  { subst w1 pos. simpl. rewrite Hin, Hold. simpl.
    case_bool_decide as Hne; simpl; [done|].
    rewrite Hold. f_equal.
    by destruct (decide (mapFromGlobal w globalPos = old)) as [->|]. }
  destruct (handle_event_frame w (MouseMove globalPos))
    as (Hwd & Hht & _ & Hss & _ & _ & _ & _ & _ & Hpe & _ & Hc & Hr & _).
  fold w1 in Hwd, Hht, Hss, Hpe, Hc, Hr.
  split; [done|]. split; [done|].
  rewrite Hpe, Hp, call_paint_decorated, draw_memoized.
  destruct (getattr (_hg_cols w1) [QColor_of "#ffffff"]) as [|accent more] eqn:Ec.
  { rewrite Hc in Ec. done. }
  rewrite (draw_overlay_glow w1 _ opacity pos accent more);
    [|by rewrite Hh|done|apply contains_rect_nonneg in Hin; subst pos; lia|done].
  cbn [mbind result_bind]. eexists _, _. split.
  - f_equal. f_equal. f_equal. f_equal.
    unfold clip_path, paint_radius, _extract_border_radius.
    by rewrite Hwd, Hht, Hr, Hss.
  - reflexivity.
Qed.

Lemma move_inside_glows_witness :
  let w1 := handle_event placed_widget (MouseMove (mkQPoint 15 27)) in
  _hg_hover w1 = Some true
  /\ _hg_pos w1 = Some (mkQPoint 5 7)
  /\ exists w2 gradient,
       call_paint (paintEvent w1) None w1
       = Ok (w2, [OwnDrawing; FillPath (RectPath (mkQRect 0 0 99 39)) gradient])
       /\ g_centre gradient = mkQPoint 5 7.
Proof.
  refine (move_inside_glows placed_widget (mkQPoint 15 27) None 255 eq_refl _ eq_refl).
  split; [by eexists|discriminate].
Defined.

Lemma same_but_hover_refl w : same_but_hover w w.
Proof. by repeat split. Qed.

Lemma same_but_hover_trans w1 w2 w3 :
  same_but_hover w1 w2 -> same_but_hover w2 w3 -> same_but_hover w1 w3.
Proof.
  unfold same_but_hover. intros H12 H23.
  destruct_and!. repeat split; congruence.
Qed.

Lemma handle_events_frame w events : same_but_hover w (handle_events w events).
Proof.
  unfold handle_events. revert w.
  induction events as [|event more IH]; intros w; simpl.
  - apply same_but_hover_refl.
  - eapply same_but_hover_trans; [apply handle_event_frame|apply IH].
Qed.

Lemma arrives_frame w w' event :
  same_but_hover w w' -> arrives w' event = arrives w event.
Proof.
  intros (Hwd & Hht & Ho & _). destruct event; try done.
  simpl. unfold rect, mapFromGlobal. by rewrite Hwd, Hht, Ho.
Qed.

Lemma forallb_same {A} (f g : A -> bool) (l : list A) :
  (forall x, f x = g x) -> forallb f l = forallb g l.
Proof. intros H. induction l as [|x l IH]; simpl; [done|]. by rewrite H, IH. Qed.

Lemma forallb_of_map {A B} (f : B -> bool) (g : A -> B) (l : list A) :
  forallb f (map g l) = forallb (fun x => f (g x)) l.
Proof. induction l as [|x l IH]; simpl; [done|]. by rewrite IH. Qed.

Lemma quiet_event_keeps_dark w event :
  getattr (_hg_hover w) false = false ->
  arrives w event = false ->
  getattr (_hg_hover (handle_event w event)) false = false.
Proof.
  intros Hd Hq. destruct event; simpl in *; try done.
  by rewrite Hq, Hd.
Qed.

Lemma quiet_events_keep_dark w events :
  getattr (_hg_hover w) false = false ->
  forallb (fun event => negb (arrives w event)) events = true ->
  getattr (_hg_hover (handle_events w events)) false = false.
Proof.
  unfold handle_events. revert w.
  induction events as [|event more IH]; intros w Hd; simpl; [done|].
  intros [Hq Hmore]%andb_prop. apply negb_true_iff in Hq.
  apply IH; [by apply quiet_event_keeps_dark|].
  rewrite <- Hmore. apply forallb_same.
  intros e. f_equal. apply arrives_frame, handle_event_frame.
Qed.

Lemma dark_paint w app opacity :
  paintEvent w = PatchedPaint ClassPaint opacity ->
  getattr (_hg_hover w) false = false ->
  call_paint (paintEvent w) app w = Ok (memoized w app, [OwnDrawing]).
Proof.
  intros Hp Hd. rewrite Hp, call_paint_decorated, draw_memoized.
  by rewrite (draw_overlay_none _ _ _ Hd).
Qed.

(** X2: a pointer-leave, or a pointer-move to a place outside the widget,
    ends the glow whatever the state was: until the pointer enters or
    moves inside again, whatever else arrives (presses, releases, other
    moves outside), a paint draws the widget's own drawing and nothing
    more, and raises nothing. *)
Theorem leaving_ends_glow
    (w : Widget) (event : QEvent) (later : list QEvent)
    (app : option string) (opacity : Q) :
  paintEvent w = PatchedPaint ClassPaint opacity ->
  event = Leave
  \/ (exists globalPos,
        event = MouseMove globalPos
        /\ contains (rect w) (mapFromGlobal w globalPos) = false) ->
  forallb (fun e => negb (arrives w e)) later = true ->
  let w1 := handle_events (handle_event w event) later in
  getattr (_hg_hover w1) false = false
  /\ exists w2, call_paint (paintEvent w1) app w1 = Ok (w2, [OwnDrawing]).
Proof.
  intros Hp Hev Hq w1.
  assert (getattr (_hg_hover (handle_event w event)) false = false) as Hd.
  { destruct Hev as [->|(g & -> & Hout)]; [done|].
    simpl. rewrite Hout.
    by destruct (getattr (_hg_hover w) false) eqn:E. }
  assert (getattr (_hg_hover w1) false = false) as Hd1.
  { apply quiet_events_keep_dark; [done|].
    rewrite <- Hq. apply forallb_same.
    intros e. f_equal. apply arrives_frame, handle_event_frame. }
  split; [done|].
  assert (paintEvent w1 = PatchedPaint ClassPaint opacity) as Hp1.
  { pose proof (same_but_hover_trans _ _ _ (handle_event_frame w event)
                  (handle_events_frame (handle_event w event) later)) as H.
    destruct H as (_ & _ & _ & _ & _ & _ & _ & _ & _ & Hpe & _).
    fold w1 in Hpe. by rewrite Hpe. }
  eexists. exact (dark_paint _ _ opacity Hp1 Hd1).
Qed.

Lemma leaving_ends_glow_witness :
  let w1 :=
    handle_events
      (handle_event (handle_event placed_widget (Enter (mkQPoint 5 7)))
         (MouseMove (mkQPoint 500 27)))
      [MouseButtonPress; MouseMove (mkQPoint 9 20); MouseButtonRelease] in
  getattr (_hg_hover w1) false = false
  /\ exists w2, call_paint (paintEvent w1) None w1 = Ok (w2, [OwnDrawing]).
Proof.
  refine (leaving_ends_glow (handle_event placed_widget (Enter (mkQPoint 5 7)))
            (MouseMove (mkQPoint 500 27))
            [MouseButtonPress; MouseMove (mkQPoint 9 20); MouseButtonRelease]
            None 255 eq_refl _ eq_refl).
  right. exists (mkQPoint 500 27). split; reflexivity.
Defined.

Lemma set_widget_id wid w world :
  widgets world !! wid = Some w -> set_widget wid w world = world.
Proof.
  intros H. destruct world as [ws fs n a]. unfold set_widget; simpl in *.
  by rewrite (insert_id _ _ _ H).
Qed.

(** A run of events through a live filter is the run of [handle_event]
    on its target. *)
Lemma deliver_live self events world f tid target :
  filters world !! self = Some f ->
  _target f = Some tid ->
  widgets world !! tid = Some target ->
  deliver self events world
  = Ok (set_widget tid (handle_events target (map snd events)) world).
Proof.
  intros Hf Ht. revert world target Hf.
  induction events as [|[watched event] more IH]; intros world target Hf Hw.
  - simpl. by rewrite (set_widget_id _ _ _ Hw).
  - cbn [deliver]. rewrite (eventFilter_live _ _ _ _ _ _ _ Hf Ht Hw).
    cbn [mbind result_bind fst].
    rewrite (IH _ (handle_event target event)); [|done|].
    + by rewrite set_set_widget.
    + simpl. apply lookup_insert_eq.
Qed.

(** X3: from the attachment until the pointer first enters or moves
    inside, no overlay is drawn: whatever the colours given (an empty
    list too) and whatever presses, releases, leaves and outside moves
    arrive, on whatever descendant, the toolkit's paint succeeds and
    shows the widget's own drawing alone. *)
Theorem no_glow_before_arrival
    (wid : nat) (colours : Colours) (opacity : Q) (world : World)
    (widget : Widget) (events : list (nat * QEvent)) :
  widgets world !! wid = Some widget ->
  getattr (_hg_enabled widget) false = false ->
  paintEvent widget = ClassPaint ->
  forallb (fun we => negb (arrives widget we.2)) events = true ->
  exists world1 world2 world3,
    enable_hover_gradient wid colours opacity world = Ok world1
    /\ deliver (next_filter world) events world1 = Ok world2
    /\ paint_widget wid world2 = Ok (world3, [OwnDrawing]).
Proof.
  intros Hw Hen Hp Hq.
  rewrite (enable_hover_gradient_fresh _ _ _ _ _ Hw Hen).
  set (w0 := decorated (next_filter world) colours opacity widget).
  eexists _, _, _. split; [reflexivity|].
  split.
  - eapply (deliver_live _ _ _ (mkFilter (Some wid) false) wid w0); simpl.
    + apply lookup_insert_eq.
    + done.
    + apply lookup_insert_eq.
  - unfold paint_widget. rewrite get_set_widget. cbn [mbind result_bind].
    set (w1 := handle_events w0 (map snd events)).
    assert (getattr (_hg_hover w1) false = false) as Hd.
    { apply quiet_events_keep_dark; [done|].
      rewrite forallb_of_map. rewrite <- Hq. apply forallb_same.
      intros [watched event]. reflexivity. }
    assert (paintEvent w1 = PatchedPaint ClassPaint (255 * opacity)%Q) as Hp1.
    { destruct (handle_events_frame w0 (map snd events))
        as (_ & _ & _ & _ & _ & _ & _ & _ & _ & Hpe & _).
      fold w1 in Hpe. rewrite Hpe. simpl. by rewrite Hp. }
    rewrite (dark_paint _ _ _ Hp1 Hd). reflexivity.
Qed.

Lemma no_glow_before_arrival_witness :
  exists world1 world2 world3,
    enable_hover_gradient 0 (ColoursList []) 1
      (one_widget (plain_widget 100 40 "")) = Ok world1
    /\ deliver 0 [(3%nat, MouseButtonPress); (0%nat, Leave);
                  (4%nat, MouseMove (mkQPoint 100 40))] world1 = Ok world2
    /\ paint_widget 0 world2 = Ok (world3, [OwnDrawing]).
Proof.
  exact (no_glow_before_arrival 0 (ColoursList []) 1
           (one_widget (plain_widget 100 40 "")) (plain_widget 100 40 "")
           [(3%nat, MouseButtonPress); (0%nat, Leave);
            (4%nat, MouseMove (mkQPoint 100 40))]
           eq_refl eq_refl eq_refl eq_refl).
Defined.

Lemma draw_at_most_one w path opacity overlay :
  _draw_hover_gradient w path opacity = Ok overlay -> (length overlay <= 1)%nat.
Proof.
  unfold _draw_hover_gradient.
  destruct (negb _); [intros [= <-]; simpl; lia|].
  destruct (attr _ _) as [pos|]; [|done]. cbn [mbind result_bind].
  destruct (px pos <? 0); [intros [= <-]; simpl; lia|].
  destruct (getattr _ _); [done|]. intros [= <-]. simpl. lia.
Qed.

(** X4: the wrapper runs the widget's previous paint routine first and
    keeps all it drew, in order; it adds at most one fill after it, and
    it changes nothing of the widget but the memoized radius.  When the
    previous routine raises, the wrapper raises the same and draws
    nothing. *)
Theorem wrapper_draws_original_first
    (original : PaintRoutine) (opacity : Q) (app : option string) (w : Widget) :
  match call_paint original app w with
  | Raise e => call_paint (PatchedPaint original opacity) app w = Raise e
  | Ok (w0, drawn0) =>
      forall w' drawn,
        call_paint (PatchedPaint original opacity) app w = Ok (w', drawn) ->
        w' = memoized w0 app
        /\ exists overlay,
             drawn = (drawn0 ++ overlay)%list /\ (length overlay <= 1)%nat
  end.
Proof.
  cbn [call_paint]. unfold patched_paint.
  destruct (call_paint original app w) as [[w0 drawn0]|e]; [|reflexivity].
  cbn [mbind result_bind]. intros w' drawn. unfold memoized.
  destruct (_hg_radius w0) as [r|].
  - destruct (_draw_hover_gradient w0 _ opacity) as [overlay|] eqn:E; [|done].
    cbn [mbind result_bind]. intros [= <- <-]. split; [done|].
    exists overlay. split; [done|]. by eapply draw_at_most_one.
  - destruct (_draw_hover_gradient _ _ opacity) as [overlay|] eqn:E; [|done].
    cbn [mbind result_bind]. intros [= <- <-]. split; [done|].
    exists overlay. split; [done|]. by eapply draw_at_most_one.
Qed.

(** ** What the listener leaves alone *)

(** X5: whenever [eventFilter] returns, it returns [False] (the event is
    never consumed), the filters, the filter counter and the application
    are as before, every widget other than the filter's target is as
    before, and the target differs at most in its hover state and its
    count of repaint requests: no widget appears or disappears. *)
Theorem eventFilter_frame
    (self watched : nat) (event : QEvent) (world world' : World) (handled : bool) :
  eventFilter self watched event world = Ok (world', handled) ->
  handled = false
  /\ filters world' = filters world
  /\ next_filter world' = next_filter world
  /\ app_styleSheet world' = app_styleSheet world
  /\ (forall wid,
        match widgets world !! wid with
        | Some w =>
            exists w', widgets world' !! wid = Some w' /\ same_but_hover w w'
        | None => widgets world' !! wid = None
        end)
  /\ (forall wid f,
        filters world !! self = Some f ->
        _target f <> Some wid ->
        widgets world' !! wid = widgets world !! wid).
Proof.
  unfold eventFilter. destruct (get_filter self world) as [f|] eqn:Ef; [|done].
  cbn [mbind result_bind].
  assert (filters world !! self = Some f) as Hf.
  { unfold get_filter in Ef. destruct (filters world !! self); congruence. }
  destruct (_target f) as [tid|] eqn:Et.
  - destruct (get_widget tid world) as [target|] eqn:Ew; [|done].
    cbn [mbind result_bind]. intros [= <- <-].
    assert (widgets world !! tid = Some target) as Hw.
    { unfold get_widget in Ew. destruct (widgets world !! tid); congruence. }
    repeat split; try done.
    + intros wid. simpl. destruct (decide (tid = wid)) as [<-|Hne].
      * rewrite Hw, lookup_insert_eq. eexists. split; [done|].
        apply handle_event_frame.
      * rewrite lookup_insert_ne by done.
        destruct (widgets world !! wid) as [w|]; [|done].
        eexists. split; [done|]. apply same_but_hover_refl.
    + intros wid f' Hf' Hne. simpl.
      rewrite lookup_insert_ne; [done|]. congruence.
  - intros [= <- <-]. repeat split; try done.
    intros wid. destruct (widgets world !! wid) as [w|]; [|done].
    eexists. split; [done|]. apply same_but_hover_refl.
Qed.

Lemma eventFilter_frame_witness :
  exists world',
    eventFilter 0 7 MouseButtonPress decorated_world = Ok (world', false)
    /\ filters world' = filters decorated_world.
Proof.
  eexists. split; [reflexivity|].
  exact (proj1 (proj2 (eventFilter_frame 0 7 MouseButtonPress decorated_world
                         _ false eq_refl))).
Defined.

(** X6: a pointer-move repeated at the same global position changes
    nothing and requests no repaint, inside the widget or outside it,
    whatever the state before the first of the two. *)
Theorem repeated_move_is_idle (w : Widget) (globalPos : QPoint) :
  handle_event (handle_event w (MouseMove globalPos)) (MouseMove globalPos)
  = handle_event w (MouseMove globalPos).
Proof.
  assert (forall w', same_but_hover w w' ->
            contains (rect w') (mapFromGlobal w' globalPos)
            = contains (rect w) (mapFromGlobal w globalPos)) as Hsame.
  { intros w' (Hwd & Hht & Ho & _). unfold rect, mapFromGlobal.
    by rewrite Hwd, Hht, Ho. }
  pose proof (Hsame _ (handle_event_frame w (MouseMove globalPos))) as Hin1.
  remember (handle_event w (MouseMove globalPos)) as w1 eqn:Hw1.
  cbn [handle_event]. cbv zeta. rewrite Hin1.
  assert (mapFromGlobal w1 globalPos = mapFromGlobal w globalPos) as ->.
  { destruct (handle_event_frame w (MouseMove globalPos)) as (_ & _ & Ho & _).
    rewrite <- Hw1 in Ho. unfold mapFromGlobal. by rewrite Ho. }
  cbn [handle_event] in Hw1. cbv zeta in Hw1.
  destruct (contains (rect w) (mapFromGlobal w globalPos)).
  - destruct (decide (mapFromGlobal w globalPos
                      <> getattr (_hg_pos w) (mkQPoint 0 0))) as [Hne|Heq].
    + rewrite (bool_decide_eq_true_2 _ Hne) in Hw1. subst w1. simpl.
      rewrite bool_decide_eq_false_2 by (by intros ?). reflexivity.
    + rewrite (bool_decide_eq_false_2 _ Heq) in Hw1. subst w1. simpl.
      rewrite bool_decide_eq_false_2 by done. reflexivity.
  - destruct (getattr (_hg_hover w) false) eqn:Hh; subst w1; simpl.
    + reflexivity.
    + by rewrite Hh.
Qed.

Lemma handle_event_updates w event :
  (w_updates w <= w_updates (handle_event w event) <= S (w_updates w))%nat.
Proof.
  destruct event; simpl; try lia.
  destruct (contains _ _).
  - case_bool_decide; simpl; lia.
  - destruct (getattr (_hg_hover w) false); simpl; lia.
Qed.

(** X7: an event requests at most one repaint and never takes one back:
    after a run of n events the count of repaint requests has grown by
    at most n; and an event of another type than the six handled changes
    nothing at all. *)
Theorem repaint_requests_bounded (w : Widget) (events : list QEvent) :
  (w_updates w <= w_updates (handle_events w events)
   <= w_updates w + length events)%nat
  /\ (forall type, handle_event w (OtherEvent type) = w).
Proof.
  split; [|done]. unfold handle_events. revert w.
  induction events as [|event more IH]; intros w; simpl; [lia|].
  pose proof (handle_event_updates w event).
  pose proof (IH (handle_event w event)). lia.
Qed.

(** ** Reaching every descendant *)

Lemma installed_once fid fs : installed fid (installEventFilter fid fs) = 1%nat.
Proof.
  unfold installed, installEventFilter. simpl. rewrite Nat.eqb_refl. simpl.
  f_equal. induction fs as [|g fs IH]; simpl; [done|].
  destruct (g =? fid)%nat eqn:E; simpl; [done|].
  rewrite Nat.eqb_sym, E. exact IH.
Qed.

Fixpoint propagate_reaches_subtree (fid : nat) (c : Child) {struct c} :
  Forall (reached fid) (subtree (_propagate_child fid c))
  /\ length (subtree (_propagate_child fid c)) = length (subtree c).
Proof.
  destruct c as [tracking fs kids]. cbn [_propagate_child subtree].
  assert (Forall (reached fid) (concat (map subtree (map (_propagate_child fid) kids)))
          /\ length (concat (map subtree (map (_propagate_child fid) kids)))
             = length (concat (map subtree kids))) as [Hall Hlen].
  { induction kids as [|kid kids [IH1 IH2]]; simpl; [done|].
    destruct (propagate_reaches_subtree fid kid) as [H1 H2].
    split; [by apply Forall_app|].
    rewrite !length_app. by rewrite H2, IH2. }
  split.
  - constructor; [|exact Hall].
    split; [done|]. split; [done|]. apply installed_once.
  - simpl. by rewrite Hlen.
Qed.

(** X8: the attachment reaches every descendant the widget has at that
    moment, at any depth: each one forwards pointer motion and has the
    new filter installed exactly once, in front of its other filters; the
    root has both as well; and no descendant is added or lost. *)
Theorem enable_reaches_every_descendant
    (wid : nat) (colours : Colours) (opacity : Q) (world : World) (widget : Widget) :
  widgets world !! wid = Some widget ->
  getattr (_hg_enabled widget) false = false ->
  exists world1 widget1,
    enable_hover_gradient wid colours opacity world = Ok world1
    /\ widgets world1 !! wid = Some widget1
    /\ filters world1 !! next_filter world = Some (mkFilter (Some wid) false)
    /\ w_mouseTracking widget1 = true
    /\ head (w_eventFilters widget1) = Some (next_filter world)
    /\ installed (next_filter world) (w_eventFilters widget1) = 1%nat
    /\ Forall (reached (next_filter world)) (findChildren widget1)
    /\ length (findChildren widget1) = length (findChildren widget).
Proof.
  intros Hw Hen. rewrite (enable_hover_gradient_fresh _ _ _ _ _ Hw Hen).
  eexists _, _. split; [reflexivity|].
  split; [simpl; apply lookup_insert_eq|].
  split; [simpl; apply lookup_insert_eq|].
  split; [done|]. split; [done|]. split; [apply installed_once|].
  unfold findChildren. simpl.
  induction (w_children widget) as [|kid kids [IH1 IH2]]; simpl; [done|].
  destruct (propagate_reaches_subtree (next_filter world) kid) as [H1 H2].
  split; [by apply Forall_app|].
  rewrite !length_app. by rewrite H2, IH2.
Qed.

Lemma enable_reaches_every_descendant_witness :
  exists world1 widget1,
    enable_hover_gradient 0 ColoursNone 1 (one_widget family) = Ok world1
    /\ widgets world1 !! 0%nat = Some widget1
    /\ filters world1 !! 0%nat = Some (mkFilter (Some 0%nat) false)
    /\ w_mouseTracking widget1 = true
    /\ head (w_eventFilters widget1) = Some 0%nat
    /\ installed 0 (w_eventFilters widget1) = 1%nat
    /\ Forall (reached 0) (findChildren widget1)
    /\ length (findChildren widget1) = 3%nat.
Proof.
  exact (enable_reaches_every_descendant 0 ColoursNone 1 (one_widget family)
           family eq_refl eq_refl).
Defined.

(** ** A declaration at the end of a style text *)

Lemma strip_prefix_append p r : Re.strip_prefix p (p ++ r) = Some r.
Proof.
  induction p as [|a p IH]; [done|].
  rewrite append_cons. cbn [Re.strip_prefix]. by rewrite Ascii.eqb_refl.
Qed.

Lemma skip_spaces_append ws r :
  all_chars Re.is_space ws = true ->
  Re.skip_spaces (ws ++ r) = Re.skip_spaces r.
Proof.
  induction ws as [|c ws IH]; [done|].
  intros [Hc Hws]%andb_prop. rewrite append_cons. cbn [Re.skip_spaces].
  by rewrite Hc, IH.
Qed.

Lemma take_digits_append ds rest :
  all_chars Re.is_digit ds = true ->
  no_digit_ahead rest = true ->
  Re.take_digits (ds ++ rest) = (ds, rest).
Proof.
  intros Hds Hrest. induction ds as [|c ds IH].
  - destruct rest as [|c rest]; [done|].
    simpl in *. apply negb_true_iff in Hrest. by rewrite Hrest.
  - apply andb_prop in Hds as [Hc Hds]. rewrite append_cons.
    cbn [Re.take_digits]. by rewrite Hc, (IH Hds).
Qed.

Lemma digit_not_space c : Re.is_digit c = true -> Re.is_space c = false.
Proof. destruct c as [[] [] [] [] [] [] [] []]; vm_compute; congruence. Qed.

(** The pattern matches every declaration that is not followed by a
    further digit, and captures its digits. *)
Lemma match_here_declaration ws1 ws2 ds rest :
  all_chars Re.is_space ws1 = true ->
  all_chars Re.is_space ws2 = true ->
  all_chars Re.is_digit ds = true ->
  ds <> "" ->
  no_digit_ahead rest = true ->
  Re.match_here (declaration ws1 ws2 ds ++ rest) = Some (ds, rest).
Proof.
  intros H1 H2 H3 Hne Hrest. unfold declaration, Re.match_here.
  rewrite !append_assoc_string, strip_prefix_append.
  rewrite (skip_spaces_append _ _ H1).
  change (":" ++ ws2 ++ ds ++ rest) with (String ":" (ws2 ++ ds ++ rest)).
  cbn [Re.skip_spaces]. change (Re.is_space ":") with false. cbv iota.
  change (Ascii.eqb ":" ":") with true.
  rewrite (skip_spaces_append _ _ H2).
  destruct ds as [|d ds]; [done|].
  rewrite append_cons. cbn [Re.skip_spaces].
  pose proof H3 as Hall. cbn [all_chars] in H3.
  apply andb_prop in H3 as [Hd Hds].
  rewrite (digit_not_space _ Hd). rewrite <- append_cons.
  by rewrite take_digits_append.
Qed.

Lemma declarations_append pre s :
  exists front, declarations (pre ++ s) = (front ++ declarations s)%list.
Proof.
  induction pre as [|c pre [front IH]].
  - by exists [].
  - rewrite append_cons, declarations_cons.
    destruct (Re.match_here _) as [[ds rest]|].
    + exists (ds :: front). by rewrite IH.
    + exists front. by rewrite IH.
Qed.

Lemma last_app_nonempty {A} (l1 l2 : list A) (x : A) :
  last l2 = Some x -> last (l1 ++ l2)%list = Some x.
Proof.
  intros H. induction l1 as [|a l1 IH]; [done|].
  simpl. destruct (l1 ++ l2)%list eqn:E; [|done].
  apply app_eq_nil in E as [_ ->]. done.
Qed.

(** X9: later rules win, whatever stands before them: when the widget's
    own style text ends with a corner-radius declaration (with any blanks
    around the colon, followed by a unit or anything else that holds no
    further declaration), the radius resolved is the number of that
    declaration, whatever precedes it in the text and whatever the
    application's style text says. *)
Theorem trailing_declaration_wins
    (w : Widget) (app : option string) (pre ws1 ws2 ds tail : string) :
  all_chars Re.is_space ws1 = true ->
  all_chars Re.is_space ws2 = true ->
  all_chars Re.is_digit ds = true ->
  ds <> "" ->
  no_digit_ahead tail = true ->
  declarations tail = [] ->
  w_styleSheet w = pre ++ declaration ws1 ws2 ds ++ tail ->
  _extract_border_radius w app = int ds.
Proof.
  intros H1 H2 H3 Hne Hahead Htail Hsheet.
  unfold _extract_border_radius. rewrite first_radius_declarations.
  cbn [List.app]. rewrite Hsheet.
  destruct (declarations_append pre (declaration ws1 ws2 ds ++ tail))
    as [front ->].
  rewrite (last_app_nonempty front _ ds); [done|].
  pose proof (match_here_declaration ws1 ws2 ds tail H1 H2 H3 Hne Hahead) as Hm.
  destruct (match_here_one_b _ _ _ Hm) as (m & Hdecl & Hm').
  rewrite Hdecl in Hm |- *. rewrite declarations_cons, Hm.
  by rewrite (declarations_skip _ _ Hm'), Htail.
Qed.

Lemma trailing_declaration_wins_witness :
  _extract_border_radius
    (plain_widget 100 40
       "QFrame { border-radius: 3px; } QFrame:hover { border-radius :  12px; }")
    (Some "* { border-radius: 40px; }")
  = 12.
Proof.
  exact (trailing_declaration_wins
           (plain_widget 100 40
              "QFrame { border-radius: 3px; } QFrame:hover { border-radius :  12px; }")
           (Some "* { border-radius: 40px; }")
           "QFrame { border-radius: 3px; } QFrame:hover { " " " "  " "12" "px; }"
           eq_refl eq_refl eq_refl ltac:(discriminate) eq_refl eq_refl eq_refl).
Defined.

(** ** The cached icon tables *)

(** X10: each icon table is read and parsed at most once per process.
    Once a loader has returned a table, every later call returns that same
    table and leaves the cache alone, whatever has become of the files
    and whichever loader was called in between; a call that raises caches
    nothing, so the next call reads the file again. *)
Theorem icon_tables_loaded_once
    (json_loads : string -> result (gmap string string)) (root : string)
    (fs : string -> result string) (cache : IconCache) :
  (forall icons cache1,
     Loader._material_icons json_loads root fs cache = (Ok icons, cache1) ->
     forall fs' fs'',
       Loader._material_icons json_loads root fs' cache1 = (Ok icons, cache1)
       /\ Loader._material_icons json_loads root fs''
            (Loader._material_icons_filled json_loads root fs' cache1).2
          = (Ok icons, (Loader._material_icons_filled json_loads root fs' cache1).2))
  /\ (forall icons cache1,
        Loader._material_icons_filled json_loads root fs cache = (Ok icons, cache1) ->
        forall fs' fs'',
          Loader._material_icons_filled json_loads root fs' cache1 = (Ok icons, cache1)
          /\ Loader._material_icons_filled json_loads root fs''
               (Loader._material_icons json_loads root fs' cache1).2
             = (Ok icons, (Loader._material_icons json_loads root fs' cache1).2))
  /\ (forall e cache1,
        Loader._material_icons json_loads root fs cache = (Raise e, cache1) ->
        cache1 = cache
        /\ forall fs', Loader._material_icons json_loads root fs' cache1
                       = Loader._material_icons json_loads root fs' cache)
  /\ (forall e cache1,
        Loader._material_icons_filled json_loads root fs cache = (Raise e, cache1) ->
        cache1 = cache).
Proof.
  unfold Loader._material_icons, Loader._material_icons_filled.
  split; [|split; [|split]].
  - intros icons cache1 H.
    assert (cached_icons cache1 = Some icons) as Hc.
    { destruct (cached_icons cache) eqn:E.
      - injection H as <- <-. done.
      - destruct (Loader.load _ fs _); [|done]. injection H as <- <-. done. }
    intros fs' fs''. rewrite Hc. split; [done|].
    destruct (cached_icons_filled cache1); simpl; [by rewrite Hc|].
    destruct (Loader.load _ fs' _); simpl; by rewrite ?Hc.
  - intros icons cache1 H.
    assert (cached_icons_filled cache1 = Some icons) as Hc.
    { destruct (cached_icons_filled cache) eqn:E.
      - injection H as <- <-. done.
      - destruct (Loader.load _ fs _); [|done]. injection H as <- <-. done. }
    intros fs' fs''. rewrite Hc. split; [done|].
    destruct (cached_icons cache1); simpl; [by rewrite Hc|].
    destruct (Loader.load _ fs' _); simpl; by rewrite ?Hc.
  - intros e cache1 H. destruct (cached_icons cache) eqn:E; [done|].
    destruct (Loader.load _ fs _); [done|]. injection H as <- <-.
    split; [done|]. intros fs'. by rewrite E.
  - intros e cache1 H. destruct (cached_icons_filled cache); [done|].
    destruct (Loader.load _ fs _); [done|]. by injection H as <- <-.
Qed.

Lemma icon_tables_loaded_once_witness :
  Loader._material_icons json_of_test "/opt/bec" no_files
    (Loader._material_icons json_of_test "/opt/bec" both_files empty_cache).2
  = (Ok {[ "close" := "<svg>close</svg>"; "settings" := "<svg>settings</svg>" ]},
     (Loader._material_icons json_of_test "/opt/bec" both_files empty_cache).2).
Proof.
  exact (proj1 (proj1 (icon_tables_loaded_once json_of_test "/opt/bec" both_files
                         empty_cache) _ _ eq_refl no_files no_files)).
Defined.

Lemma loader_icons_value json_loads root fs cache :
  (Loader._material_icons json_loads root fs cache).1
  = match cached_icons cache with
    | Some icons => Ok icons
    | None => Loader.load json_loads fs (Loader.icons_file root)
    end.
Proof.
  unfold Loader._material_icons.
  destruct (cached_icons cache); [done|]. by destruct (Loader.load _ _ _).
Qed.

Lemma loader_filled_value json_loads root fs cache :
  (Loader._material_icons_filled json_loads root fs cache).1
  = match cached_icons_filled cache with
    | Some icons => Ok icons
    | None => Loader.load json_loads fs (Loader.icons_filled_file root)
    end.
Proof.
  unfold Loader._material_icons_filled.
  destruct (cached_icons_filled cache); [done|]. by destruct (Loader.load _ _ _).
Qed.

(** X11: when both tables can be had (from the cache or from the files),
    the icon an [__init__] call builds, or the [KeyError] it raises, is
    the one the lookup in those two tables gives: filled entry, else
    outline entry. *)
Theorem svg_init_from_loaded_tables
    (json_loads : string -> result (gmap string string)) (root : string)
    (Color : Type) (fs : string -> result string) (id : string) (filled : bool)
    (cache : IconCache) (icons icons_filled : gmap string string) :
  (Loader._material_icons json_loads root fs cache).1 = Ok icons ->
  (Loader._material_icons_filled json_loads root fs cache).1 = Ok icons_filled ->
  (Loader._MaterialIconSVG_init json_loads root Color fs id filled cache).1
  = @_MaterialIconSVG_init Color (mkCatalog icons icons_filled) id filled.
Proof.
  rewrite loader_icons_value, loader_filled_value. intros Ho Hf.
  unfold Loader._MaterialIconSVG_init, _MaterialIconSVG_init, Loader.source_from.
  unfold Loader._material_icons, Loader._material_icons_filled.
  cbn [_material_icons _material_icons_filled].
  destruct filled.
  - destruct (cached_icons_filled cache) as [f0|] eqn:Ef.
    + injection Hf as ->. cbn [fst snd].
      destruct (negb (contains_key icons_filled id)).
      * destruct (cached_icons cache) as [o0|] eqn:Eo.
        -- injection Ho as ->. reflexivity.
        -- rewrite Ho. reflexivity.
      * rewrite Ef. reflexivity.
    + rewrite Hf. cbn [fst snd cached_icons cached_icons_filled].
      destruct (negb (contains_key icons_filled id)).
      * destruct (cached_icons cache) as [o0|] eqn:Eo.
        -- injection Ho as ->. reflexivity.
        -- rewrite Ho. reflexivity.
      * reflexivity.
  - destruct (cached_icons cache) as [o0|] eqn:Eo.
    + injection Ho as ->. reflexivity.
    + rewrite Ho. reflexivity.
Qed.

Lemma svg_init_from_loaded_tables_witness :
  (Loader._MaterialIconSVG_init json_of_test "/opt/bec" RGBA both_files
     "settings" true empty_cache).1
  = Ok (mkSVG "settings" None None "<svg>settings</svg>").
Proof.
  exact (svg_init_from_loaded_tables json_of_test "/opt/bec" RGBA both_files
           "settings" true empty_cache _ _ eq_refl eq_refl).
Defined.

(** X12: the tables are loaded lazily.  A request for an outline icon
    never opens the file of filled icons: it gives the same result and
    the same cache on every file system that has the same outline file,
    and leaves the cached filled table as it was.  A request for a filled
    icon whose name the filled table has never opens the outline file. *)
Theorem svg_init_opens_only_what_it_needs
    (json_loads : string -> result (gmap string string)) (root : string)
    (Color : Type) (fs fs' : string -> result string) (id : string)
    (cache : IconCache) :
  (fs' (Loader.icons_file root) = fs (Loader.icons_file root) ->
   Loader._MaterialIconSVG_init json_loads root Color fs' id false cache
   = Loader._MaterialIconSVG_init json_loads root Color fs id false cache)
  /\ cached_icons_filled
       (Loader._MaterialIconSVG_init json_loads root Color fs id false cache).2
     = cached_icons_filled cache
  /\ (forall icons_filled source,
        (Loader._material_icons_filled json_loads root fs cache).1 = Ok icons_filled ->
        icons_filled !! id = Some source ->
        fs' (Loader.icons_filled_file root) = fs (Loader.icons_filled_file root) ->
        Loader._MaterialIconSVG_init json_loads root Color fs' id true cache
        = Loader._MaterialIconSVG_init json_loads root Color fs id true cache
        /\ (Loader._MaterialIconSVG_init json_loads root Color fs id true cache).1
           = Ok (mkSVG id None None source)
        /\ cached_icons
             (Loader._MaterialIconSVG_init json_loads root Color fs id true cache).2
           = cached_icons cache).
Proof.
  split; [|split].
  - intros Hsame.
    unfold Loader._MaterialIconSVG_init, Loader.source_from,
      Loader._material_icons, Loader.load.
    by rewrite Hsame.
  - unfold Loader._MaterialIconSVG_init, Loader.source_from,
      Loader._material_icons.
    destruct (cached_icons cache); [done|].
    by destruct (Loader.load _ _ _).
  - intros icons_filled source Hf Hid Hsame.
    rewrite loader_filled_value in Hf.
    assert (contains_key icons_filled id = true) as Hin.
    { apply contains_key_true. by rewrite Hid. }
    unfold Loader._MaterialIconSVG_init, Loader.source_from,
      Loader._material_icons_filled, Loader.load in *.
    rewrite Hsame.
    destruct (cached_icons_filled cache) as [f0|] eqn:Ef.
    + injection Hf as ->. rewrite Hin. cbn [negb]. rewrite Ef.
      unfold getitem. rewrite Hid. done.
    + rewrite Hf. cbn [cached_icons_filled]. rewrite Hin. cbn [negb].
      unfold getitem. rewrite Hid. done.
Qed.

Lemma svg_init_opens_only_what_it_needs_witness :
  Loader._MaterialIconSVG_init json_of_test "/opt/bec" RGBA outline_file_only
    "close" false empty_cache
  = Loader._MaterialIconSVG_init json_of_test "/opt/bec" RGBA both_files
      "close" false empty_cache.
Proof.
  exact (proj1 (svg_init_opens_only_what_it_needs json_of_test "/opt/bec" RGBA
                  both_files outline_file_only "close" empty_cache) eq_refl).
Defined.

(** Without the file of filled icons an outline icon is still built, a
    filled one is not. *)
Example outline_icon_without_filled_file :
  (Loader._MaterialIconSVG_init json_of_test "/opt/bec" RGBA outline_file_only
     "close" false empty_cache).1
  = Ok (mkSVG "close" None None "<svg>close</svg>")
  /\ (Loader._MaterialIconSVG_init json_of_test "/opt/bec" RGBA outline_file_only
        "close" true empty_cache).1
     = Raise (RuntimeError "No such file or directory").
Proof. split; reflexivity. Qed.

(** ** The mapping of a theme *)

Lemma setdefault_lookup m k v j :
  Main.setdefault m k v !! j
  = match m !! j with
    | Some x => Some x
    | None => if String.eqb k j then Some v else None
    end.
Proof.
  unfold Main.setdefault.
  destruct (String.eqb k j) eqn:E.
  - apply String.eqb_eq in E as ->.
    destruct (m !! j) eqn:Ej; [by rewrite Ej|]. by rewrite lookup_insert_eq.
  - apply String.eqb_neq in E.
    destruct (m !! k) eqn:Ek.
    + by destruct (m !! j).
    + rewrite lookup_insert_ne by done. by destruct (m !! j).
Qed.

Lemma radius_defaults_lookup defaults m j :
  Main.radius_defaults defaults m !! j = given defaults m j.
Proof.
  unfold Main.radius_defaults, given. revert m.
  induction defaults as [|[k v] more IH]; intros m; simpl.
  - by destruct (m !! j).
  - rewrite IH, setdefault_lookup. simpl.
    destruct (m !! j); [done|]. by destruct (String.eqb k j).
Qed.

Lemma normalize_aliases_lookup m j :
  Main.normalize_aliases m !! j
  = if decide (j = "INPUT_BG" \/ j = "FIELD_BG")
    then match m !! "FIELD_BG" with
         | Some v => Some v
         | None => m !! "INPUT_BG"
         end
    else m !! j.
Proof.
  unfold Main.normalize_aliases.
  destruct (m !! "FIELD_BG") as [f|] eqn:Ef.
  - assert (match m !! "INPUT_BG" with
            | Some input_bg => m
            | None => m
            end = m) as -> by (by destruct (m !! "INPUT_BG")).
    rewrite Ef. case_decide as Hj.
    + destruct Hj as [->| ->]; [apply lookup_insert_eq|].
      by rewrite lookup_insert_ne.
    + rewrite lookup_insert_ne; [done|]. intros <-. apply Hj. by left.
  - destruct (m !! "INPUT_BG") as [i|] eqn:Ei.
    + rewrite lookup_insert_eq. case_decide as Hj.
      * destruct Hj as [->| ->]; [apply lookup_insert_eq|].
        rewrite lookup_insert_ne by done. apply lookup_insert_eq.
      * rewrite !lookup_insert_ne; [done| |].
        -- intros <-. apply Hj. by right.
        -- intros <-. apply Hj. by left.
    + rewrite Ef. case_decide as Hj; [|done].
      by destruct Hj as [->| ->].
Qed.

Lemma ensure_on_primary_lookup color m j :
  j <> "ON_PRIMARY" -> Main.ensure_on_primary color m !! j = m !! j.
Proof.
  intros Hj. unfold Main.ensure_on_primary.
  destruct (m !! "ON_PRIMARY"); [done|].
  destruct (color _); by rewrite lookup_insert_ne.
Qed.

(** X13: after the normalisation of a theme's mapping, [INPUT_BG] and
    [FIELD_BG] hold the same value, or are both absent: the value is that
    of [FIELD_BG] when the theme or the defaults give one, whatever
    [INPUT_BG] was, and that of [INPUT_BG] otherwise. *)
Theorem aliases_agree
    (DEFAULT_RADIUS : list (string * string)) (QColor_rgb : string -> result RGBA)
    (mapping : gmap string string) :
  let normal := Main.normalize DEFAULT_RADIUS QColor_rgb mapping in
  normal !! "INPUT_BG" = normal !! "FIELD_BG"
  /\ normal !! "FIELD_BG"
     = match given DEFAULT_RADIUS mapping "FIELD_BG" with
       | Some v => Some v
       | None => given DEFAULT_RADIUS mapping "INPUT_BG"
       end.
Proof.
  intros normal. subst normal. unfold Main.normalize.
  rewrite !ensure_on_primary_lookup by done.
  rewrite !normalize_aliases_lookup, !radius_defaults_lookup.
  rewrite !decide_True by auto. done.
Qed.

Lemma yiq_threshold c :
  Qle_bool 140 (Main.yiq c)
  = (140000 <=? red c * 299 + green c * 587 + blue c * 114).
Proof.
  unfold Main.yiq, Qle_bool, Qdiv, Qmult, Qinv, inject_Z. cbn.
  set (s := red c * 299 + green c * 587 + blue c * 114).
  destruct (Z.leb_spec 140000 s).
  - apply Z.leb_le. lia.
  - apply Z.leb_gt. lia.
Qed.

Lemma ensure_on_primary_value color m :
  Main.ensure_on_primary color m !! "ON_PRIMARY"
  = match m !! "ON_PRIMARY" with
    | Some v => Some v
    | None =>
        Some match color (Main.get m "PRIMARY" "#3b82f6") with
             | Ok c =>
                 if 140000 <=? red c * 299 + green c * 587 + blue c * 114
                 then "#000000" else "#ffffff"
             | Raise _ => "#ffffff"
             end
    end.
Proof.
  unfold Main.ensure_on_primary.
  destruct (m !! "ON_PRIMARY") eqn:E; [done|].
  destruct (color _) as [c|]; rewrite lookup_insert_eq; [|done].
  by rewrite yiq_threshold.
Qed.

Lemma aliases_agree_lookup defaults color m :
  Main.normalize defaults color m !! "INPUT_BG"
  = Main.normalize defaults color m !! "FIELD_BG"
  /\ Main.normalize defaults color m !! "FIELD_BG"
     = match given defaults m "FIELD_BG" with
       | Some v => Some v
       | None => given defaults m "INPUT_BG"
       end.
Proof.
  unfold Main.normalize.
  rewrite !ensure_on_primary_lookup by done.
  rewrite !normalize_aliases_lookup, !radius_defaults_lookup.
  rewrite !decide_True by auto. done.
Qed.

Lemma on_primary_lookup defaults color m :
  Main.normalize defaults color m !! "ON_PRIMARY"
  = match given defaults m "ON_PRIMARY" with
    | Some v => Some v
    | None =>
        Some match color match given defaults m "PRIMARY" with
                         | Some v => v
                         | None => "#3b82f6"
                         end with
             | Ok c =>
                 if 140000 <=? red c * 299 + green c * 587 + blue c * 114
                 then "#000000" else "#ffffff"
             | Raise _ => "#ffffff"
             end
    end.
Proof.
  unfold Main.normalize.
  rewrite ensure_on_primary_value. unfold Main.get.
  rewrite !normalize_aliases_lookup, !radius_defaults_lookup.
  rewrite !decide_False; [done| |].
  - intros [?|?]; discriminate.
  - intros [?|?]; discriminate.
Qed.

(** X14: after the normalisation a mapping always has [ON_PRIMARY].  A
    value the theme or the defaults give is kept; otherwise it is black,
    [#000000], when the primary colour ([PRIMARY], or [#3b82f6] when
    there is none) has 299 red + 587 green + 114 blue of at least 140000,
    and white, [#ffffff], when it has less or when reading the colour
    raises. *)
Theorem on_primary_contrast
    (DEFAULT_RADIUS : list (string * string)) (QColor_rgb : string -> result RGBA)
    (mapping : gmap string string) :
  let normal := Main.normalize DEFAULT_RADIUS QColor_rgb mapping in
  let primary :=
    match given DEFAULT_RADIUS mapping "PRIMARY" with
    | Some v => v
    | None => "#3b82f6"
    end in
  normal !! "ON_PRIMARY"
  = match given DEFAULT_RADIUS mapping "ON_PRIMARY" with
    | Some v => Some v
    | None =>
        Some match QColor_rgb primary with
             | Ok c =>
                 if 140000 <=? red c * 299 + green c * 587 + blue c * 114
                 then "#000000" else "#ffffff"
             | Raise _ => "#ffffff"
             end
    end.
Proof.
  intros normal primary. subst normal primary. unfold Main.normalize.
  rewrite ensure_on_primary_value. unfold Main.get.
  rewrite !normalize_aliases_lookup, !radius_defaults_lookup.
  rewrite !decide_False; [done| |].
  - intros [?|?]; discriminate.
  - intros [?|?]; discriminate.
Qed.

(** The default primary colour [#3b82f6] is dark: white goes on it. *)
Example on_default_primary :
  Main.normalize two_radii three_colors ∅ !! "ON_PRIMARY" = Some "#ffffff"
  /\ Main.normalize two_radii three_colors light_theme !! "ON_PRIMARY"
     = Some "#000000".
Proof. split; reflexivity. Qed.

Lemma normalize_other_lookup defaults color m key :
  ~ alias_or_on_primary key ->
  Main.normalize defaults color m !! key = given defaults m key.
Proof.
  intros Hk. unfold Main.normalize.
  rewrite ensure_on_primary_lookup.
  - rewrite normalize_aliases_lookup.
    rewrite decide_False; [apply radius_defaults_lookup|].
    intros [->| ->]; apply Hk.
    + by left.
    + right. by left.
  - intros ->. apply Hk. right. by right.
Qed.

(** X15: the normalisation loses nothing.  Every key of the theme is a
    key afterwards, with the theme's own value unless the key is
    [INPUT_BG]; a default is used only for a key the theme lacks, and of
    two defaults for one key the first; and apart from [INPUT_BG],
    [FIELD_BG] and [ON_PRIMARY], no key appears that neither the theme
    nor the defaults have. *)
Theorem normalize_keeps_theme
    (DEFAULT_RADIUS : list (string * string)) (QColor_rgb : string -> result RGBA)
    (mapping : gmap string string) :
  let normal := Main.normalize DEFAULT_RADIUS QColor_rgb mapping in
  (forall key v,
     key <> "INPUT_BG" -> mapping !! key = Some v -> normal !! key = Some v)
  /\ (forall key, is_Some (mapping !! key) -> is_Some (normal !! key))
  /\ (forall key,
        ~ alias_or_on_primary key ->
        normal !! key = given DEFAULT_RADIUS mapping key).
Proof.
  intros normal.
  assert (forall key v,
            key <> "INPUT_BG" -> mapping !! key = Some v -> normal !! key = Some v)
    as Hkeep.
  { intros key v Hne Hkey. subst normal.
    destruct (decide (key = "FIELD_BG")) as [->|Hf].
    - rewrite (proj2 (aliases_agree_lookup DEFAULT_RADIUS QColor_rgb mapping)).
      unfold given. by rewrite Hkey.
    - destruct (decide (key = "ON_PRIMARY")) as [->|Ho].
      + rewrite on_primary_lookup. unfold given. by rewrite Hkey.
      + rewrite normalize_other_lookup.
        * unfold given. by rewrite Hkey.
        * by intros [?|[?|?]]. }
  split; [exact Hkeep|]. split.
  - intros key [v Hkey].
    destruct (decide (key = "INPUT_BG")) as [->|Hne]; [|by eexists; eapply Hkeep].
    subst normal.
    rewrite (proj1 (aliases_agree_lookup DEFAULT_RADIUS QColor_rgb mapping)).
    rewrite (proj2 (aliases_agree_lookup DEFAULT_RADIUS QColor_rgb mapping)).
    unfold given at 2. rewrite Hkey.
    by destruct (given DEFAULT_RADIUS mapping "FIELD_BG").
  - intros key Hk. by apply normalize_other_lookup.
Qed.

Lemma given_again defaults (m r : gmap string string) key :
  r !! key = given defaults m key -> given defaults r key = given defaults m key.
Proof.
  intros H. unfold given at 1. rewrite H.
  destruct (given defaults m key) eqn:E; [done|].
  unfold given in E. by destruct (m !! key).
Qed.

(** X16: normalising a mapping a second time changes nothing: every
    default is in place, the two aliases agree and [ON_PRIMARY] is
    there. *)
Theorem normalize_idempotent
    (DEFAULT_RADIUS : list (string * string)) (QColor_rgb : string -> result RGBA)
    (mapping : gmap string string) :
  Main.normalize DEFAULT_RADIUS QColor_rgb
    (Main.normalize DEFAULT_RADIUS QColor_rgb mapping)
  = Main.normalize DEFAULT_RADIUS QColor_rgb mapping.
Proof.
  set (normal := Main.normalize DEFAULT_RADIUS QColor_rgb mapping).
  destruct (aliases_agree_lookup DEFAULT_RADIUS QColor_rgb mapping) as [Hi Hf].
  fold normal in Hi, Hf.
  assert (Main.normalize DEFAULT_RADIUS QColor_rgb normal !! "FIELD_BG"
          = normal !! "FIELD_BG") as Hf2.
  { rewrite (proj2 (aliases_agree_lookup DEFAULT_RADIUS QColor_rgb normal)).
    destruct (normal !! "FIELD_BG") as [v|] eqn:E.
    - unfold given at 1. by rewrite E.
    - assert (given DEFAULT_RADIUS mapping "FIELD_BG" = None) as Hgf
        by (by destruct (given DEFAULT_RADIUS mapping "FIELD_BG")).
      rewrite Hgf in Hf. symmetry in Hf.
      assert (first_item DEFAULT_RADIUS "FIELD_BG" = None) as Hdf.
      { unfold given in Hgf. by destruct (mapping !! "FIELD_BG"). }
      assert (first_item DEFAULT_RADIUS "INPUT_BG" = None) as Hdi.
      { unfold given in Hf. by destruct (mapping !! "INPUT_BG"). }
      unfold given. by rewrite E, Hdf, Hi, Hdi. }
  apply map_eq. intros key.
  destruct (decide (key = "FIELD_BG")) as [->|Hnf]; [exact Hf2|].
  destruct (decide (key = "INPUT_BG")) as [->|Hni].
  { rewrite (proj1 (aliases_agree_lookup DEFAULT_RADIUS QColor_rgb normal)).
    by rewrite Hf2, Hi. }
  destruct (decide (key = "ON_PRIMARY")) as [->|Hno].
  { rewrite (on_primary_lookup DEFAULT_RADIUS QColor_rgb normal).
    assert (is_Some (normal !! "ON_PRIMARY")) as [v Hv].
    { subst normal. rewrite on_primary_lookup.
      by destruct (given DEFAULT_RADIUS mapping "ON_PRIMARY"). }
    unfold given. by rewrite Hv. }
  assert (~ alias_or_on_primary key) as Hk by (by intros [?|[?|?]]).
  rewrite (normalize_other_lookup _ _ normal key Hk).
  rewrite (given_again DEFAULT_RADIUS mapping normal key)
    by apply (normalize_other_lookup _ _ mapping key Hk).
  symmetry. apply (normalize_other_lookup _ _ mapping key Hk).
Qed.

(** ** More on [material_icon] *)

(** X17: the lookup comes first.  For a name absent from the table
    consulted, [material_icon] raises [KeyError] with that name whatever
    the other arguments are: a result kind that is neither [QIcon] nor
    [QPixmap] does not turn it into a [TypeError]. *)
Theorem unknown_icon_raises_first
    (Color : Type) (cat : Catalog) (icon_name : string) (size : SizeArg)
    (colour : ColorSpec) (rotate_by : Z) (mode : option Mode) (filled : bool)
    (icon_type : IconType) :
  consulted cat icon_name filled !! icon_name = None ->
  @material_icon Color cat icon_name size colour rotate_by mode filled icon_type
  = Raise (KeyError icon_name).
Proof.
  intros H. unfold material_icon. by rewrite svg_init_consulted, H.
Qed.

Lemma unknown_icon_raises_first_witness :
  @material_icon RGBA two_icons "nonexistent_icon_xyz" (SizeTuple 32 32)
    (ColorStr "#ff0000") 90 None true (other_type "QImage")
  = Raise (KeyError "nonexistent_icon_xyz").
Proof.
  exact (unknown_icon_raises_first RGBA two_icons "nonexistent_icon_xyz"
           (SizeTuple 32 32) (ColorStr "#ff0000") 90 None true
           (other_type "QImage") eq_refl).
Defined.

(** X18: an icon handle is coloured when it is painted, not when it is
    made.  For a known name the [QIcon] result carries the colour
    argument as given, ignoring size and mode; painted, a handle made
    with a colour resolves to the same colour in every mode, and one made
    without resolves to the palette's disabled text colour in the
    disabled mode and to its text colour in any other. *)
Theorem icon_handle_colours_at_paint_time
    (Color : Type) (from_rgba : list Z -> result Color)
    (from_hex : string -> result Color)
    (cat : Catalog) (icon_name : string) (size : SizeArg) (colour : ColorSpec)
    (rotate_by : Z) (mode : option Mode) (filled : bool) (source : string) :
  consulted cat icon_name filled !! icon_name = Some source ->
  exists engine : _MaterialIconEngine Color,
    material_icon cat icon_name size colour rotate_by mode filled QIcon_type
    = Ok (AsQIcon engine)
    /\ color engine = colour
    /\ (forall size' mode',
          material_icon cat icon_name size' colour rotate_by mode' filled QIcon_type
          = Ok (AsQIcon engine))
    /\ (forall palette m1 m2,
          colour <> ColorNone ->
          paint_color from_rgba from_hex palette engine m1
          = paint_color from_rgba from_hex palette engine m2)
    /\ (forall palette m,
          colour = ColorNone ->
          paint_color from_rgba from_hex palette engine m
          = from_rgba (getRgb match m with
                              | Disabled => disabled_text palette
                              | _ => text palette
                              end)).
Proof.
  intros H. unfold material_icon. rewrite svg_init_consulted, H.
  cbn [mbind result_bind]. eexists. split; [reflexivity|].
  split; [by destruct colour|]. split; [done|].
  split.
  - intros palette m1 m2 Hc. unfold paint_color.
    destruct colour; done.
  - intros palette m ->. unfold paint_color. simpl. by destruct m.
Qed.

Lemma icon_handle_colours_at_paint_time_witness :
  exists engine : _MaterialIconEngine RGBA,
    material_icon two_icons "close" SizeNone ColorNone 0 None false QIcon_type
    = Ok (AsQIcon engine)
    /\ paint_color Color_from_rgba Color_from_hex grey_palette engine Disabled
       = Ok (mkRGBA 120 120 120 255)
    /\ paint_color Color_from_rgba Color_from_hex grey_palette engine Selected
       = Ok (mkRGBA 20 20 20 255).
Proof.
  destruct (icon_handle_colours_at_paint_time RGBA Color_from_rgba Color_from_hex
              two_icons "close" SizeNone ColorNone 0 None false
              "<svg>close</svg>" eq_refl)
    as (engine & Hmade & _ & _ & _ & Hnone).
  exists engine. split; [exact Hmade|].
  split; [exact (Hnone grey_palette Disabled eq_refl)|].
  exact (Hnone grey_palette Selected eq_refl).
Defined.

(** ** Pressing, and painting after any events *)

(** X19: a press on a hovering widget concentrates the glow.  Painted
    after a press and painted after a release, the overlay has the same
    centre, the same accent colour and the same edge; pressed, its radius
    is max(width, height) * 0.6 instead of max(width, height) * 0.9
    (never larger, for a widget of non-negative size) and its centre
    alpha is the full ceiling instead of the ceiling * 0.6 (never
    smaller, for a non-negative ceiling). *)
Theorem press_concentrates_glow
    (w : Widget) (path : QPainterPath) (opacity : Q) (pos : QPoint)
    (accent : QColor) (more : list QColor) :
  getattr (_hg_hover w) false = true ->
  _hg_pos w = Some pos ->
  0 <= px pos ->
  getattr (_hg_cols w) [QColor_of "#ffffff"] = accent :: more ->
  exists pressed released edge,
    _draw_hover_gradient (handle_event w MouseButtonPress) path opacity
    = Ok [FillPath path pressed]
    /\ _draw_hover_gradient (handle_event w MouseButtonRelease) path opacity
       = Ok [FillPath path released]
    /\ g_centre pressed = pos
    /\ g_centre released = pos
    /\ g_stops pressed = [(0%Q, OfColor (setAlpha accent opacity)); (1%Q, edge)]
    /\ g_stops released
       = [(0%Q, OfColor (setAlpha accent (opacity * (6 # 10))%Q)); (1%Q, edge)]
    /\ g_radius pressed
       = (inject_Z (Z.max (w_width w) (w_height w)) * (6 # 10))%Q
    /\ g_radius released
       = (inject_Z (Z.max (w_width w) (w_height w)) * (9 # 10))%Q
    /\ (0 <= w_width w -> 0 <= w_height w ->
        (g_radius pressed <= g_radius released)%Q)
    /\ ((0 <= opacity)%Q -> (opacity * (6 # 10) <= opacity)%Q).
Proof.
  intros Hh Hpos Hx Hc.
  rewrite (draw_overlay_glow (handle_event w MouseButtonPress) path opacity
             pos accent more Hh Hpos Hx Hc).
  rewrite (draw_overlay_glow (handle_event w MouseButtonRelease) path opacity
             pos accent more Hh Hpos Hx Hc).
  eexists _, _, _. split; [reflexivity|]. split; [reflexivity|].
  split; [reflexivity|]. split; [reflexivity|].
  split; [reflexivity|]. split; [reflexivity|].
  cbn [handle_event update set_hg_pressed _hg_pressed getattr w_width w_height
         hover_gradient g_radius].
  split; [reflexivity|]. split; [reflexivity|].
  set (m := inject_Z (Z.max (w_width w) (w_height w))).
  split; [|intros; lra].
  intros Hwd Hht.
  assert (0 <= m)%Q.
  { subst m. change 0%Q with (inject_Z 0). rewrite <- Zle_Qle. lia. }
  lra.
Qed.

Lemma press_concentrates_glow_witness :
  let w := handle_event placed_widget (Enter (mkQPoint 5 7)) in
  exists pressed released edge,
    _draw_hover_gradient (handle_event w MouseButtonPress)
      (RectPath (mkQRect 0 0 99 39)) 255
    = Ok [FillPath (RectPath (mkQRect 0 0 99 39)) pressed]
    /\ _draw_hover_gradient (handle_event w MouseButtonRelease)
         (RectPath (mkQRect 0 0 99 39)) 255
       = Ok [FillPath (RectPath (mkQRect 0 0 99 39)) released]
    /\ g_centre pressed = mkQPoint 5 7
    /\ g_centre released = mkQPoint 5 7
    /\ g_stops pressed
       = [(0%Q, OfColor (setAlpha (QColor_of "#ffffff") 255)); (1%Q, edge)]
    /\ g_stops released
       = [(0%Q, OfColor (setAlpha (QColor_of "#ffffff") (255 * (6 # 10))%Q));
          (1%Q, edge)]
    /\ g_radius pressed = (inject_Z 100 * (6 # 10))%Q
    /\ g_radius released = (inject_Z 100 * (9 # 10))%Q
    /\ (0 <= 100 -> 0 <= 40 -> (g_radius pressed <= g_radius released)%Q)
    /\ ((0 <= 255)%Q -> (255 * (6 # 10) <= 255)%Q).
Proof.
  exact (press_concentrates_glow
           (handle_event placed_widget (Enter (mkQPoint 5 7)))
           (RectPath (mkQRect 0 0 99 39)) 255 (mkQPoint 5 7)
           (QColor_of "#ffffff") [] eq_refl eq_refl ltac:(simpl; lia) eq_refl).
Defined.

(** X20: a widget decorated with at least one colour can always be
    painted: after the attachment and any run of events, arriving on any
    objects, the toolkit's paint returns, and what it draws starts with
    the widget's own drawing and has at most one fill after it. *)
Theorem decorated_widget_always_paints
    (wid : nat) (colours : Colours) (opacity : Q) (world : World)
    (widget : Widget) (events : list (nat * QEvent)) :
  widgets world !! wid = Some widget ->
  getattr (_hg_enabled widget) false = false ->
  paintEvent widget = ClassPaint ->
  colours <> ColoursList [] ->
  exists world1 world2 world3 overlay,
    enable_hover_gradient wid colours opacity world = Ok world1
    /\ deliver (next_filter world) events world1 = Ok world2
    /\ paint_widget wid world2 = Ok (world3, OwnDrawing :: overlay)
    /\ (length overlay <= 1)%nat.
Proof.
  intros Hw Hen Hp Hc.
  rewrite (enable_hover_gradient_fresh _ _ _ _ _ Hw Hen).
  set (w0 := decorated (next_filter world) colours opacity widget).
  set (w1 := handle_events w0 (map snd events)).
  assert (paintable w1) as Hok.
  { subst w1. unfold handle_events.
    assert (paintable w0) as H0 by (by apply decorated_paintable).
    revert H0. generalize w0. induction (map snd events) as [|e es IH];
      intros w' Hw'; simpl; [done|].
    apply IH. by apply handle_event_paintable. }
  assert (paintEvent w1 = PatchedPaint ClassPaint (255 * opacity)%Q) as Hp1.
  { destruct (handle_events_frame w0 (map snd events))
      as (_ & _ & _ & _ & _ & _ & _ & _ & _ & Hpe & _).
    fold w1 in Hpe. rewrite Hpe. simpl. by rewrite Hp. }
  destruct (draw_hover_gradient_ok w1 (clip_path w1 (paint_radius w1 (app_styleSheet world)))
              (255 * opacity)%Q Hok) as [overlay Ho].
  eexists _, _, _, overlay. split; [reflexivity|].
  split.
  - eapply (deliver_live _ _ _ (mkFilter (Some wid) false) wid w0); simpl.
    + apply lookup_insert_eq.
    + done.
    + apply lookup_insert_eq.
  - unfold paint_widget. rewrite get_set_widget. cbn [mbind result_bind].
    fold w1. rewrite Hp1, call_paint_decorated, draw_memoized.
    cbn [app_styleSheet set_widget]. rewrite Ho. cbn [mbind result_bind].
    split; [reflexivity|]. by eapply draw_at_most_one.
Qed.

Lemma decorated_widget_always_paints_witness :
  exists world1 world2 world3 overlay,
    enable_hover_gradient 0 (ColoursStr "#ff8800") 1
      (one_widget (plain_widget 100 40 "")) = Ok world1
    /\ deliver 0 [(2%nat, Enter (mkQPoint (-1) (-1))); (0%nat, MouseButtonPress);
                  (5%nat, MouseMove (mkQPoint 30 30))] world1 = Ok world2
    /\ paint_widget 0 world2 = Ok (world3, OwnDrawing :: overlay)
    /\ (length overlay <= 1)%nat.
Proof.
  exact (decorated_widget_always_paints 0 (ColoursStr "#ff8800") 1
           (one_widget (plain_widget 100 40 "")) (plain_widget 100 40 "")
           [(2%nat, Enter (mkQPoint (-1) (-1))); (0%nat, MouseButtonPress);
            (5%nat, MouseMove (mkQPoint 30 30))]
           eq_refl eq_refl eq_refl ltac:(discriminate)).
Defined.

(** ** The resolver against the text of the style sheets *)

Lemma digit_value_table c : Re.is_digit c = true -> digit_value c = digit_of c.
Proof. destruct c as [[] [] [] [] [] [] [] []]; vm_compute; congruence. Qed.

Lemma int_acc_decimal ds acc :
  all_chars Re.is_digit ds = true ->
  int_acc acc ds = acc * 10 ^ Z.of_nat (String.length ds) + decimal_value ds.
Proof.
  revert acc. induction ds as [|c ds IH]; intros acc Hds.
  - simpl. lia.
  - cbn [all_chars] in Hds. apply andb_prop in Hds as [Hc Hds].
    cbn [int_acc decimal_value String.length].
    rewrite (IH _ Hds), (digit_value_table _ Hc).
    rewrite Nat2Z.inj_succ, Z.pow_succ_r by lia. lia.
Qed.

(** [int] reads a run of digits as the decimal number it writes. *)
Lemma int_decimal ds : all_chars Re.is_digit ds = true -> int ds = decimal_value ds.
Proof. intros H. unfold int. rewrite (int_acc_decimal _ _ H). lia. Qed.

Lemma take_digits_rest s ds rest :
  Re.take_digits s = (ds, rest) -> no_digit_ahead rest = true.
Proof.
  revert ds rest. induction s as [|c s IH]; intros ds rest H; simpl in H.
  - by injection H as <- <-.
  - destruct (Re.is_digit c) eqn:E.
    + destruct (Re.take_digits s) as [ds' rest']. injection H as <- <-.
      by eapply IH.
    + injection H as <- <-. simpl. by rewrite E.
Qed.

Lemma match_here_rest s ds rest :
  Re.match_here s = Some (ds, rest) -> no_digit_ahead rest = true.
Proof.
  unfold Re.match_here. intros H.
  destruct (Re.strip_prefix _ s) as [r1|]; [|done].
  destruct (Re.skip_spaces r1) as [|c r2]; [done|].
  destruct (Re.take_digits (Re.skip_spaces r2)) as [d r] eqn:E2.
  apply take_digits_rest in E2.
  assert (rest = r) as ->
    by (destruct d; destruct c as [[] [] [] [] [] [] [] []]; congruence).
  exact E2.
Qed.

Lemma has_declaration_cons c s : has_declaration s -> has_declaration (String c s).
Proof.
  intros (pre & ws1 & ws2 & ds & rest & -> & H).
  exists (String c pre), ws1, ws2, ds, rest. by rewrite append_cons.
Qed.

Lemma has_declaration_app m s : has_declaration s -> has_declaration (m ++ s).
Proof.
  intros H. induction m as [|c m IH]; [done|].
  rewrite append_cons. by apply has_declaration_cons.
Qed.

(** Where the pattern matches there is a declaration, and where there is
    a declaration the pattern matches. *)
Lemma declarations_sound s : declarations s <> [] -> has_declaration s.
Proof.
  induction s as [|c s IH]; [done|].
  rewrite declarations_cons.
  destruct (Re.match_here (String c s)) as [[ds rest]|] eqn:E.
  - intros _.
    destruct (match_here_split _ _ _ E) as (ws1 & ws2 & Hs & H1 & H2 & H3 & Hne).
    exists "", ws1, ws2, ds, rest. split; [|done].
    rewrite Hs. unfold declaration. by rewrite !append_assoc_string.
  - intros H. by apply has_declaration_cons, IH.
Qed.

Lemma all_chars_append p s t :
  all_chars p s = true -> all_chars p t = true -> all_chars p (s ++ t) = true.
Proof. intros Hs Ht. by rewrite all_chars_app, Hs, Ht. Qed.

Lemma declarations_complete s : has_declaration s -> declarations s <> [].
Proof.
  intros (pre & ws1 & ws2 & ds & rest & -> & H1 & H2 & H3 & Hne).
  destruct (declarations_append pre (declaration ws1 ws2 ds ++ rest))
    as [front ->].
  destruct (Re.take_digits rest) as [more tail] eqn:Et.
  pose proof (take_digits_rest _ _ _ Et) as Hahead.
  apply take_digits_split in Et as [-> Hmore].
  assert (declaration ws1 ws2 ds ++ more ++ tail
          = declaration ws1 ws2 (ds ++ more) ++ tail) as ->.
  { unfold declaration. by rewrite !append_assoc_string. }
  assert (ds ++ more <> "") as Hne' by (by destruct ds).
  pose proof (match_here_declaration ws1 ws2 (ds ++ more) tail H1 H2
                (all_chars_append _ _ _ H3 Hmore) Hne' Hahead) as Hm.
  destruct (match_here_one_b _ _ _ Hm) as (m & Hdecl & _).
  rewrite Hdecl in Hm |- *. rewrite declarations_cons, Hm.
  by destruct front.
Qed.

Lemma no_declaration_by_scan s : declarations s = [] -> ~ has_declaration s.
Proof. intros H Hd. by apply declarations_complete in Hd. Qed.

(** The last declaration of a text is the last match of the pattern. *)
Lemma last_declaration_found s ds :
  last_declaration s ds -> last (declarations s) = Some ds.
Proof.
  intros (pre & ws1 & ws2 & tail & -> & H1 & H2 & H3 & Hne & Hahead & Hno).
  assert (declarations tail = []) as Htail.
  { destruct (declarations tail) eqn:E; [done|].
    exfalso. apply Hno, declarations_sound. by rewrite E. }
  destruct (declarations_append pre (declaration ws1 ws2 ds ++ tail))
    as [front ->].
  apply last_app_nonempty.
  pose proof (match_here_declaration ws1 ws2 ds tail H1 H2 H3 Hne Hahead) as Hm.
  destruct (match_here_one_b _ _ _ Hm) as (m & Hdecl & Hm').
  rewrite Hdecl in Hm |- *. rewrite declarations_cons, Hm.
  by rewrite (declarations_skip _ _ Hm'), Htail.
Qed.

(** Every text that holds a declaration has a last one. *)
Lemma last_declaration_exists s :
  has_declaration s -> exists ds, last_declaration s ds.
Proof.
  induction s as [|c s IH]; intros Hs.
  - by apply declarations_complete in Hs.
  - destruct (declarations s) as [|d l] eqn:Es.
    + apply declarations_complete in Hs. rewrite declarations_cons in Hs.
      destruct (Re.match_here (String c s)) as [[ds rest]|] eqn:E;
        [|by rewrite Es in Hs].
      destruct (match_here_split _ _ _ E) as (ws1 & ws2 & Heq & H1 & H2 & H3 & Hne).
      destruct (match_here_one_b _ _ _ E) as (m & Hb & _).
      exists ds, "", ws1, ws2, rest.
      split; [rewrite Heq; unfold declaration; by rewrite !append_assoc_string|].
      repeat (split; [done|]).
      split; [by eapply match_here_rest|].
      intros Hrest. injection Hb as _ ->.
      apply (has_declaration_app m), declarations_complete in Hrest. done.
    + destruct IH as (ds & pre & ws1 & ws2 & tail & -> & H).
      { apply declarations_sound. by rewrite Es. }
      exists ds, (String c pre), ws1, ws2, tail. by rewrite append_cons.
Qed.

(** C6: the resolver scans the widget's own style text first: when that
    text holds a corner-radius declaration, the result is the number its
    last declaration writes, whatever the application's text says.  Only
    when the widget's text holds no declaration does the application's
    text decide, again by its last declaration.  When neither text holds
    one (or there is no application) the result is 0.  A text that holds
    a declaration always has a last one. *)
Theorem extract_border_radius_resolution (widget : Widget) (app : option string) :
  (forall ds,
     last_declaration (w_styleSheet widget) ds ->
     _extract_border_radius widget app = decimal_value ds)
  /\ (~ has_declaration (w_styleSheet widget) ->
      forall sheet ds,
        app = Some sheet ->
        last_declaration sheet ds ->
        _extract_border_radius widget app = decimal_value ds)
  /\ (~ has_declaration (w_styleSheet widget) ->
      match app with
      | Some sheet => ~ has_declaration sheet
      | None => True
      end ->
      _extract_border_radius widget app = 0)
  /\ (forall s, has_declaration s -> exists ds, last_declaration s ds).
Proof.
  assert (forall s, ~ has_declaration s -> declarations s = []) as Hnone.
  { intros s Hs. destruct (declarations s) eqn:E; [done|].
    exfalso. apply Hs, declarations_sound. by rewrite E. }
  assert (forall s ds, last_declaration s ds ->
            all_chars Re.is_digit ds = true) as Hdigits.
  { by intros s ds (pre & ws1 & ws2 & tail & _ & _ & _ & H3 & _). }
  unfold _extract_border_radius.
  split; [|split; [|split]].
  - intros ds Hlast. rewrite first_radius_declarations. cbn [List.app].
    rewrite (last_declaration_found _ _ Hlast).
    apply int_decimal. by eapply Hdigits.
  - intros Hown sheet ds -> Hlast.
    rewrite first_radius_declarations. cbn [List.app].
    rewrite (Hnone _ Hown). cbn [last].
    rewrite first_radius_declarations.
    rewrite (last_declaration_found _ _ Hlast).
    apply int_decimal. by eapply Hdigits.
  - intros Hown Happ.
    rewrite first_radius_declarations. cbn [List.app].
    rewrite (Hnone _ Hown). cbn [last].
    destruct app as [sheet|]; [|done].
    rewrite first_radius_declarations. by rewrite (Hnone _ Happ).
  - apply last_declaration_exists.
Qed.

Lemma extract_border_radius_resolution_witness :
  _extract_border_radius
    (plain_widget 100 40
       "QFrame { border-radius: 3px; } QFrame:hover { border-radius :  12px; }")
    (Some "* { border-radius: 40px; }")
  = 12
  /\ _extract_border_radius (plain_widget 100 40 "QWidget { border: 1px solid; }")
       (Some "* { border-radius: 7px; } QFrame { border-top-left-radius: 9px; }")
     = 7
  /\ _extract_border_radius (plain_widget 100 40 "QWidget { border: 1px solid; }")
       (Some "* { color: red; }")
     = 0.
Proof.
  split; [|split].
  - apply (proj1 (extract_border_radius_resolution _ _) "12").
    exists "QFrame { border-radius: 3px; } QFrame:hover { ", " ", "  ", "px; }".
    repeat (split; [reflexivity || discriminate|]).
    by apply no_declaration_by_scan.
  - refine (proj1 (proj2 (extract_border_radius_resolution
                            (plain_widget 100 40 "QWidget { border: 1px solid; }")
                            (Some "* { border-radius: 7px; } QFrame { border-top-left-radius: 9px; }")))
              _ _ "7" eq_refl _); [by apply no_declaration_by_scan|].
    exists "* { ", "", " ", "px; } QFrame { border-top-left-radius: 9px; }".
    repeat (split; [reflexivity || discriminate|]).
    by apply no_declaration_by_scan.
  - apply (proj1 (proj2 (proj2 (extract_border_radius_resolution
                                  (plain_widget 100 40 "QWidget { border: 1px solid; }")
                                  (Some "* { color: red; }"))))).
    + by apply no_declaration_by_scan.
    + by apply no_declaration_by_scan.
Defined.
